(** * GTSAM kernels: Levenberg-Marquardt [iterate] and [DiscreteBayesNet]

    A shallow embedding of

    - [LevenbergMarquardtOptimizer::iterate] and [::initialState]
      (gtsam/nonlinear/LevenbergMarquardtOptimizer.cpp), and
    - [DiscreteBayesNet::add], [::evaluate], [::optimize]
      (gtsam/discrete/DiscreteBayesNet.cpp; [::sample], which draws random
      values, is left out),

    together with the properties their design document states about them.

    Conventions of the embedding:

    - a C++ [double] is a binary64 [float] of the kernel ([PrimFloat]); the
      comparisons [<=] and [>=] of the source are [PrimFloat.leb], so a NaN
      compares false with everything, as in C++;
    - a [size_t] or [Index] that counts factors or variables is a [nat];
      the counter of iterations is an [unsigned int], a [Z] below [2^32]
      whose sums wrap around ([unsigned_int]);
    - a [boost::shared_ptr] to an optimizer state is a location of a heap
      [gmap positive Object];
    - an enumerator of the parameter headers is an integer whose value the
      header fixes; the header values are fields of the class [Enumerators];
    - the collaborators the optimizer calls (nonlinear graph, values, linear
      solvers) are the fields of the class [Collaborators];
    - the [mutable] member [dimensions_], the heap and what was sent to the
      collaborators and to [cout] form the [Machine] state that [iterate]
      threads; an exception is a [Throws] completion;
    - the [while(true)] loop runs on fuel: [OutOfFuel] stands for a loop that
      has not ended within the given number of trials. *)

From Stdlib Require Import ZArith String Floats.
From stdpp Require Import base option list fin_sets gmap.

Set Default Proof Using "Type".

(** ** Doubles *)

Module Double.
(** [x <= y] on doubles. *)
Definition le (x y : float) : bool := PrimFloat.leb x y.
(** [x >= y] on doubles. *)
Definition ge (x y : float) : bool := PrimFloat.leb y x.
(** [x > y] on doubles. *)
Definition gt (x y : float) : bool := PrimFloat.ltb y x.
End Double.

(** ** Integers *)

(** The value of an integer expression as an [unsigned int]: modulo [2^32]. *)
Definition unsigned_int (z : Z) : Z := (z mod 2 ^ 32)%Z.
Arguments unsigned_int : simpl never.

(** ** Linear algebra values built by [iterate] *)

Abbreviation Index := nat.
Definition Vector : Type := list float.
Definition Matrix : Type := list (list float).

(** [zero(dim)]: the null vector. *)
Definition zero (dim : nat) : Vector := replicate dim 0%float.

(** [eye(dim)]: the identity matrix, row by row. *)
Definition eye (dim : nat) : Matrix :=
  (λ i, (λ k, if Nat.eqb i k then 1%float else 0%float) <$> seq 0 dim) <$> seq 0 dim.

(** [noiseModel::Isotropic::Sigma(dim, sigma)]. *)
Record SharedDiagonal : Type := Isotropic_Sigma { model_dim : nat; model_sigma : float }.

(** [JacobianFactor(j, A, b, model)]: a unary factor on variable [j]. *)
Record JacobianFactor : Type := mkJacobianFactor {
  factor_key : Index;
  factor_A : Matrix;
  factor_b : Vector;
  factor_model : SharedDiagonal
}.

(** ** Exceptions *)

Inductive Exception : Type :=
| runtime_error (what : string)
| NegativeMatrixException
| bad_cast
| other_exception (id : nat).

(** How a computation ends. *)
Inductive Completion (A : Type) : Type :=
| Returns (a : A)
| Throws (e : Exception)
| Undefined      (* a pointer that owns no object was dereferenced *)
| OutOfFuel.     (* the trial loop has not ended within the fuel *)
Arguments Returns {A} a.
Arguments Throws {A} e.
Arguments Undefined {A}.
Arguments OutOfFuel {A}.

(** ** Declarations of the headers *)

(** The enumerators that [iterate] names. Their values are fixed by
    LevenbergMarquardtOptimizer.h and NonlinearOptimizer.h. *)
Class Enumerators : Type := {
  (* LevenbergMarquardtParams::Factorization *)
  LDL : Z;
  QR : Z;
  (* LevenbergMarquardtParams::Elimination *)
  MULTIFRONTAL : Z;
  SEQUENTIAL : Z;
  (* NonlinearOptimizerParams::Verbosity *)
  ERROR : Z;
  (* LevenbergMarquardtParams::LMVerbosity *)
  LAMBDA : Z;
  TRYLAMBDA : Z;
  TRYDELTA : Z;
  DAMPED : Z
}.

(** [LevenbergMarquardtParams], with the members of its base class
    [NonlinearOptimizerParams] that [iterate] reads. *)
Record LevenbergMarquardtParams : Type := mkParams {
  verbosity : Z;
  factorization : Z;
  elimination : Z;
  lmVerbosity : Z;
  lambdaInitial : float;
  lambdaFactor : float;
  lambdaUpperBound : float
}.

(** ** Collaborators *)

Section LinearSystem.
Context {LinearFactor : Type}.

(** A [GaussianFactor::shared_ptr]: a factor that linearization produced,
    or a [JacobianFactor] built here. *)
Inductive GaussianFactor : Type :=
| Linearized (f : LinearFactor)
| Jacobian (f : JacobianFactor).

(** [GaussianFactorGraph]: the factors in storage order. *)
Definition GaussianFactorGraph : Type := list GaussianFactor.
End LinearSystem.
Arguments GaussianFactor : clear implicits.
Arguments GaussianFactorGraph : clear implicits.

(** What the optimizer instance holds ([graph_], [ordering]) and calls.
    Linearization, error evaluation, [dims] and [retract] return normally,
    as the design's external interfaces state them; a solver returns a step
    or throws. *)
Class Collaborators : Type := {
  Values : Type;
  Ordering : Type;
  VectorValues : Type;
  LinearFactor : Type;
  (* this->ordering(values) *)
  ordering : Values → Ordering;
  (* graph_->linearize(values, ordering) *)
  graph_linearize : Values → Ordering → GaussianFactorGraph LinearFactor;
  (* graph_->error(values) *)
  graph_error : Values → float;
  (* values.dims(ordering) *)
  dims : Values → Ordering → list nat;
  (* values.retract(delta, ordering) *)
  retract : Values → VectorValues → Ordering → Values;
  (* GaussianMultifrontalSolver(system, useQR).optimize() *)
  GaussianMultifrontalSolver_optimize :
    GaussianFactorGraph LinearFactor → bool → Exception + VectorValues;
  (* GaussianSequentialSolver(system, useQR).optimize() *)
  GaussianSequentialSolver_optimize :
    GaussianFactorGraph LinearFactor → bool → Exception + VectorValues
}.

(** ** The optimizer *)

(** A [SharedState]: the location of the object it owns. *)
Abbreviation SharedState := positive.

Section LevenbergMarquardt.
Context {E : Enumerators} {C : Collaborators}.

(** [LevenbergMarquardtState]: [values], [error], [iterations] of
    [NonlinearOptimizerState] and [lambda]. The counter [iterations] is an
    [unsigned int]. *)
Record LevenbergMarquardtState : Type := mkState {
  values : Values;
  error : float;
  iterations : Z;
  lambda : float
}.

(** An object a [SharedState] may own: a Levenberg-Marquardt state, or a
    state of another optimizer. *)
Inductive Object : Type :=
| LevenbergMarquardtObject (s : LevenbergMarquardtState)
| OtherStateObject (v : Values) (e : float) (i : Z).


(** What [iterate] writes to [cout]. *)
Inductive Message : Type :=
| trying_lambda (l : float)
| print_damped (s : GaussianFactorGraph LinearFactor)
| linear_delta_norm (d : VectorValues)
| print_delta (d : VectorValues)
| next_error_is (e : float)
| negative_matrix
| giving_up.

(** What [iterate] asks of its collaborators, in order. *)
Inductive Event : Type :=
| EvLinearize (v : Values) (o : Ordering)
| EvMultifrontal (s : GaussianFactorGraph LinearFactor) (useQR : bool)
| EvSequential (s : GaussianFactorGraph LinearFactor) (useQR : bool)
| EvCout (m : Message).

Record Machine : Type := mkMachine {
  heap : gmap positive Object;
  dimensions_ : option (list nat);
  log : list Event
}.

Definition M (A : Type) : Type := Machine → Completion A * Machine.

#[global] Instance M_ret : MRet M := λ A a m, (Returns a, m).

#[global] Instance M_bind : MBind M := λ A B f c m,
  match c m with
  | (Returns a, m') => f a m'
  | (Throws e, m') => (Throws e, m')
  | (Undefined, m') => (Undefined, m')
  | (OutOfFuel, m') => (OutOfFuel, m')
  end.

Definition throw {A} (e : Exception) : M A := λ m, (Throws e, m).

(** [try { body } catch (e) { handler e }]. *)
Definition try_catch {A} (body : M A) (handler : Exception → M A) : M A := λ m,
  match body m with
  | (Throws e, m') => handler e m'
  | r => r
  end.

Definition emit (ev : Event) : M unit := λ m,
  (Returns (), mkMachine (heap m) (dimensions_ m) (log m ++ [ev])).

Definition cout (msg : Message) : M unit := emit (EvCout msg).

(** [if (level >= threshold) cout << ...]. *)
Definition cout_if (level threshold : Z) (msg : Message) : M unit :=
  if (threshold <=? level)%Z then cout msg else mret ().

(** [dynamic_cast<const LevenbergMarquardtState&>] applied to the object that [p] owns. *)
Definition dynamic_cast (p : SharedState) : M LevenbergMarquardtState := λ m,
  match heap m !! p with
  | Some (LevenbergMarquardtObject s) => (Returns s, m)
  | Some (OtherStateObject _ _ _) => (Throws bad_cast, m)
  | None => (Undefined, m)
  end.

(** [boost::make_shared<LevenbergMarquardtState>()] followed by the
    assignments to the members of the new object. *)
Definition make_shared (s : LevenbergMarquardtState) : M SharedState := λ m,
  let p := fresh (dom (heap m)) in
  (Returns p,
   mkMachine (<[p := LevenbergMarquardtObject s]> (heap m)) (dimensions_ m) (log m)).

(** [graph_->linearize(values, ordering)]. *)
Definition linearize (v : Values) (o : Ordering) : M (GaussianFactorGraph LinearFactor) :=
  emit (EvLinearize v o);; mret (graph_linearize v o).

(** [if(!dimensions_) dimensions_.reset(new vector<size_t>(values.dims(ordering)))],
    then [*dimensions_]. *)
Definition cached_dimensions (v : Values) (o : Ordering) : M (list nat) := λ m,
  match dimensions_ m with
  | Some d => (Returns d, m)
  | None => let d := dims v o in (Returns d, mkMachine (heap m) (Some d) (log m))
  end.

Definition lift_solver (r : Exception + VectorValues) : M VectorValues :=
  match r with
  | inl e => throw e
  | inr delta => mret delta
  end.

Definition multifrontal_optimize (s : GaussianFactorGraph LinearFactor) (useQR : bool)
  : M VectorValues :=
  emit (EvMultifrontal s useQR);; lift_solver (GaussianMultifrontalSolver_optimize s useQR).

Definition sequential_optimize (s : GaussianFactorGraph LinearFactor) (useQR : bool)
  : M VectorValues :=
  emit (EvSequential s useQR);; lift_solver (GaussianSequentialSolver_optimize s useQR).

(** The prior that the damping loop builds for variable [j]. *)
Definition prior (sigma : float) (j : Index) (dim : nat) : GaussianFactor LinearFactor :=
  let A := eye dim in
  let b := zero dim in
  let model := Isotropic_Sigma dim sigma in
  Jacobian (mkJacobianFactor j A b model).

(** [for(Index j=0; j<dimensions_->size(); ++j) dampedSystem.push_back(prior)],
    started at index [j] with the dimensions still to visit. *)
Fixpoint add_priors (sigma : float) (j : Index) (todo : list nat)
    (dampedSystem : GaussianFactorGraph LinearFactor) : GaussianFactorGraph LinearFactor :=
  match todo with
  | [] => dampedSystem
  | dim :: rest => add_priors sigma (S j) rest (dampedSystem ++ [prior sigma j dim])
  end.

(** The variables that the [try_lambda] loop updates. *)
Record Locals : Type := mkLocals {
  l_lambda : float;
  l_next_error : float;
  l_next_values : Values
}.

Inductive Control : Type :=
| Break (l : Locals)
| Continue (l : Locals).

(** The rejection branch, written twice in the source (lines 116-122 and
    130-136). *)
Definition reject (params_ : LevenbergMarquardtParams) (l : Locals) : M Control :=
  if Double.ge (l_lambda l) (lambdaUpperBound params_) then
    cout_if (verbosity params_) ERROR giving_up;;
    mret (Break l)
  else
    mret (Continue (mkLocals (l_lambda l * lambdaFactor params_)%float
                             (l_next_error l) (l_next_values l))).

(** One turn of [while(true)] (lines 63-139). *)
Definition try_lambda (params_ : LevenbergMarquardtParams)
    (current : LevenbergMarquardtState) (o : Ordering)
    (linear : GaussianFactorGraph LinearFactor) (useQR : bool)
    (dimensions : list nat) (l : Locals) : M Control :=
  let lmV := lmVerbosity params_ in
  cout_if lmV TRYLAMBDA (trying_lambda (l_lambda l));;
  (* Add prior-factors *)
  let sigma := (1 / PrimFloat.sqrt (l_lambda l))%float in
  let dampedSystem := add_priors sigma 0 dimensions linear in
  cout_if lmV DAMPED (print_damped dampedSystem);;
  (* Try solving *)
  try_catch
    (delta ←
       (if (elimination params_ =? MULTIFRONTAL)%Z then
          multifrontal_optimize dampedSystem useQR
        else if (elimination params_ =? SEQUENTIAL)%Z then
          sequential_optimize dampedSystem useQR
        else
          throw (runtime_error
            "Optimization parameter is invalid: LevenbergMarquardtParams::elimination"));
     cout_if lmV TRYLAMBDA (linear_delta_norm delta);;
     cout_if lmV TRYDELTA (print_delta delta);;
     (* update values *)
     let newValues := retract (values current) delta o in
     let err := graph_error newValues in
     cout_if lmV TRYLAMBDA (next_error_is err);;
     if Double.le err (error current) then
       mret (Break (mkLocals (l_lambda l / lambdaFactor params_)%float err newValues))
     else
       reject params_ l)
    (λ e,
       match e with
       | NegativeMatrixException =>
           cout_if lmV LAMBDA negative_matrix;;
           reject params_ l
       | _ => throw e
       end).

(** [while(true) { body }] run for at most [fuel] turns. *)
Fixpoint while_true (fuel : nat) (body : Locals → M Control) (l : Locals) : M Locals :=
  match fuel with
  | O => λ m, (OutOfFuel, m)
  | S fuel' =>
      c ← body l;
      match c with
      | Break l' => mret l'
      | Continue l' => while_true fuel' body l'
      end
  end.

(** [LevenbergMarquardtOptimizer::iterate]. *)
Definition iterate (fuel : nat) (params_ : LevenbergMarquardtParams)
    (_current : SharedState) : M SharedState :=
  current ← dynamic_cast _current;
  (* Linearize graph *)
  let o := ordering (values current) in
  linear ← linearize (values current) o;
  (* Check whether to use QR *)
  useQR ←
    (if (factorization params_ =? LDL)%Z then mret false
     else if (factorization params_ =? QR)%Z then mret true
     else throw (runtime_error
       "Optimization parameter is invalid: LevenbergMarquardtParams::factorization"));
  (* Variables to update during try_lambda loop *)
  let l0 := mkLocals (lambda current) (error current) (values current) in
  (* Compute dimensions if we haven't done it yet *)
  dimensions ← cached_dimensions (values current) o;
  (* Keep increasing lambda until we make make progress *)
  l ← while_true fuel (try_lambda params_ current o linear useQR dimensions) l0;
  (* Create new state with new values and new error *)
  make_shared (mkState (l_next_values l) (l_next_error l)
                       (unsigned_int (iterations current + 1)) (l_lambda l)).

(** ** Vocabulary for the properties of [iterate] *)

(** The machine after more events were logged. *)
Definition extend (m : Machine) (evs : list Event) : Machine :=
  mkMachine (heap m) (dimensions_ m) (log m ++ evs).

(** How many times a log asks for a linearization. *)
Fixpoint linearizations (evs : list Event) : nat :=
  match evs with
  | [] => 0
  | EvLinearize _ _ :: evs' => S (linearizations evs')
  | _ :: evs' => linearizations evs'
  end.

(** The solve attempts of a log: the system and [useQR] each solver
    received, in order. *)
Fixpoint solver_calls (evs : list Event)
    : list (GaussianFactorGraph LinearFactor * bool) :=
  match evs with
  | [] => []
  | EvMultifrontal s q :: evs' => (s, q) :: solver_calls evs'
  | EvSequential s q :: evs' => (s, q) :: solver_calls evs'
  | _ :: evs' => solver_calls evs'
  end.

(** The value [useQR] takes (lines 39-45), if the selector is valid. *)
Definition useQR_of (params_ : LevenbergMarquardtParams) : option bool :=
  if (factorization params_ =? LDL)%Z then Some false
  else if (factorization params_ =? QR)%Z then Some true
  else None.

(** The solver that lines 89-94 select, if the selector is valid. *)
Definition selected_solver (params_ : LevenbergMarquardtParams)
    : option (GaussianFactorGraph LinearFactor → bool → Exception + VectorValues) :=
  if (elimination params_ =? MULTIFRONTAL)%Z then Some GaussianMultifrontalSolver_optimize
  else if (elimination params_ =? SEQUENTIAL)%Z then Some GaussianSequentialSolver_optimize
  else None.

(** The damped system of a trial at [lam] (lines 68-81). *)
Definition damped_system (linear : GaussianFactorGraph LinearFactor)
    (dimensions : list nat) (lam : float) : GaussianFactorGraph LinearFactor :=
  add_priors (1 / PrimFloat.sqrt lam)%float 0 dimensions linear.

(** What a trial at a given [lambda] amounts to. *)
Inductive Verdict : Type :=
| Accept (newValues : Values) (err : float)   (* solved, error <= current.error *)
| RejectWorse (err : float)                   (* solved, error worse than current.error *)
| RejectIndefinite                            (* NegativeMatrixException *)
| Fail (e : Exception).                       (* any other exception *)

Definition trial (params_ : LevenbergMarquardtParams) (current : LevenbergMarquardtState)
    (o : Ordering) (linear : GaussianFactorGraph LinearFactor) (useQR : bool)
    (dimensions : list nat) (lam : float) : Verdict :=
  match selected_solver params_ with
  | None => Fail (runtime_error
      "Optimization parameter is invalid: LevenbergMarquardtParams::elimination")
  | Some solve =>
      match solve (damped_system linear dimensions lam) useQR with
      | inl NegativeMatrixException => RejectIndefinite
      | inl e => Fail e
      | inr delta =>
          let newValues := retract (values current) delta o in
          let err := graph_error newValues in
          if Double.le err (error current) then Accept newValues err else RejectWorse err
      end
  end.

Definition rejected (v : Verdict) : bool :=
  match v with
  | RejectWorse _ | RejectIndefinite => true
  | _ => false
  end.

Definition accepted (v : Verdict) : bool :=
  match v with
  | Accept _ _ => true
  | _ => false
  end.

(** Where the loop goes after a rejected trial. *)
Definition after_rejection (params_ : LevenbergMarquardtParams) (l : Locals) : Control :=
  if Double.ge (l_lambda l) (lambdaUpperBound params_) then Break l
  else Continue (mkLocals (l_lambda l * lambdaFactor params_)%float
                          (l_next_error l) (l_next_values l)).

Definition outcome (params_ : LevenbergMarquardtParams) (v : Verdict) (l : Locals)
    : Completion Control :=
  match v with
  | Accept newValues err =>
      Returns (Break (mkLocals (l_lambda l / lambdaFactor params_)%float err newValues))
  | RejectWorse _ | RejectIndefinite => Returns (after_rejection params_ l)
  | Fail e => Throws e
  end.

(** The damping factor of the trial that follows [k] rejections. *)
Fixpoint nth_lambda (params_ : LevenbergMarquardtParams) (lam : float) (k : nat) : float :=
  match k with
  | O => lam
  | S k' => nth_lambda params_ (lam * lambdaFactor params_)%float k'
  end.

(** The locals after [lambda *= lambdaFactor]. *)
Definition grown (params_ : LevenbergMarquardtParams) (l : Locals) : Locals :=
  mkLocals (l_lambda l * lambdaFactor params_)%float (l_next_error l) (l_next_values l).

(** A trial after which the loop goes on: it was rejected, and [lam] is not
    at or above the upper bound. *)
Definition goes_on (params_ : LevenbergMarquardtParams) (v : Verdict) (lam : float) : Prop :=
  rejected v = true ∧ Double.ge lam (lambdaUpperBound params_) = false.

(** What [cout_if] logs. *)
Definition cout_events (level threshold : Z) (msg : Message) : list Event :=
  if (threshold <=? level)%Z then [EvCout msg] else [].

(** The dimensions that a call uses: the cached ones, or else those of the
    current values. *)
Definition dimensions_in_use (m : Machine) (current : LevenbergMarquardtState) : list nat :=
  match dimensions_ m with
  | Some d => d
  | None => dims (values current) (ordering (values current))
  end.

(** The machine at the entry of the loop (line 62). *)
Definition at_loop_entry (m : Machine) (current : LevenbergMarquardtState) : Machine :=
  mkMachine (heap m) (Some (dimensions_in_use m current))
            (log m ++ [EvLinearize (values current) (ordering (values current))]).

(** The locals at the entry of the loop (lines 53-55). *)
Definition initial_locals (current : LevenbergMarquardtState) : Locals :=
  mkLocals (lambda current) (error current) (values current).

(** The new state (lines 143-147). *)
Definition state_of (current : LevenbergMarquardtState) (l : Locals)
    : LevenbergMarquardtState :=
  mkState (l_next_values l) (l_next_error l) (unsigned_int (iterations current + 1))
          (l_lambda l).

(** The loop body of a call on [current] in machine [m]. *)
Definition trials_of (params_ : LevenbergMarquardtParams) (current : LevenbergMarquardtState)
    (m : Machine) (useQR : bool) : Locals → M Control :=
  try_lambda params_ current (ordering (values current))
    (graph_linearize (values current) (ordering (values current))) useQR
    (dimensions_in_use m current).

(** The verdict of a trial at [lam] of a call on [current] in machine [m]. *)
Definition verdict_at (params_ : LevenbergMarquardtParams) (current : LevenbergMarquardtState)
    (m : Machine) (useQR : bool) (lam : float) : Verdict :=
  trial params_ current (ordering (values current))
    (graph_linearize (values current) (ordering (values current))) useQR
    (dimensions_in_use m current) lam.

(** The solve attempts of [n] trials in a row, the first at [lam]: each on
    the linear system extended with one prior per dimension. *)
Definition attempts (params_ : LevenbergMarquardtParams)
    (linear : GaussianFactorGraph LinearFactor) (dimensions : list nat) (useQR : bool)
    (lam : float) (n : nat) : list (GaussianFactorGraph LinearFactor * bool) :=
  (λ i, let sigma := (1 / PrimFloat.sqrt (nth_lambda params_ lam i))%float in
        (linear ++ imap (prior sigma) dimensions, useQR)) <$> seq 0 n.

(** The state that the returned pointer owns, when a run returned one. *)
Definition returned_state (r : Completion SharedState * Machine)
    : option LevenbergMarquardtState :=
  match r with
  | (Returns p, m) =>
      match heap m !! p with
      | Some (LevenbergMarquardtObject s) => Some s
      | _ => None
      end
  | _ => None
  end.

(** An error raised at the very start: a [runtime_error], and nothing was
    asked of the collaborators or printed before it. *)
Definition raised_at_start (m : Machine) (r : Completion SharedState * Machine) : Prop :=
  (∃ what, r.1 = Throws (runtime_error what)) ∧ log r.2 = log m.


End LevenbergMarquardt.

(** [LevenbergMarquardtOptimizer::initialState]. *)
Section InitialState.
Context {E : Enumerators} {C : Collaborators}.

(** Modelled from the spec: [defaultInitialState] of NonlinearOptimizer is
    not part of the sources at hand; it "wraps the caller-supplied estimate,
    computes its error under the graph, sets iteration count to 0". *)
Definition defaultInitialState (initialValues : Values) (lam : float)
    : LevenbergMarquardtState :=
  mkState initialValues (graph_error initialValues) 0 lam.

Definition initialState (params_ : LevenbergMarquardtParams) (initialValues : Values)
    : M SharedState :=
  make_shared (defaultInitialState initialValues (lambdaInitial params_)).

End InitialState.

(** ** More vocabulary for the log of a call *)

Section Console.
Context {E : Enumerators} {C : Collaborators}.

(** What a log wrote to [cout], in order. *)
Fixpoint printed (evs : list Event) : list Message :=
  match evs with
  | [] => []
  | EvCout msg :: evs' => msg :: printed evs'
  | _ :: evs' => printed evs'
  end.

(** How many times a log wrote the warning of lines 118 and 132. *)
Fixpoint warnings (evs : list Event) : nat :=
  match evs with
  | [] => 0
  | EvCout giving_up :: evs' => S (warnings evs')
  | _ :: evs' => warnings evs'
  end.

(** How many times a log called the multifrontal solver. *)
Fixpoint multifrontal_calls (evs : list Event) : nat :=
  match evs with
  | [] => 0
  | EvMultifrontal _ _ :: evs' => S (multifrontal_calls evs')
  | _ :: evs' => multifrontal_calls evs'
  end.

(** How many times a log called the sequential solver. *)
Fixpoint sequential_calls (evs : list Event) : nat :=
  match evs with
  | [] => 0
  | EvSequential _ _ :: evs' => S (sequential_calls evs')
  | _ :: evs' => sequential_calls evs'
  end.

(** The points of the values at which a log asked for a linearization. *)
Fixpoint linearized_at (evs : list Event) : list Values :=
  match evs with
  | [] => []
  | EvLinearize v _ :: evs' => v :: linearized_at evs'
  | _ :: evs' => linearized_at evs'
  end.

(** Every verbosity is below every threshold that [iterate] tests. *)
Definition silent (params_ : LevenbergMarquardtParams) : Prop :=
  (lmVerbosity params_ < LAMBDA ∧ lmVerbosity params_ < TRYLAMBDA
   ∧ lmVerbosity params_ < TRYDELTA ∧ lmVerbosity params_ < DAMPED
   ∧ verbosity params_ < ERROR)%Z.

(** What the warning adds to the count when a call gives up. *)
Definition warning_count (params_ : LevenbergMarquardtParams) : nat :=
  if (ERROR <=? verbosity params_)%Z then 1 else 0.

(** A stretch of a log that calls no solver but the selected one, asks for no
    linearization, and prints nothing when the parameters are [silent]. *)
Definition quiet (params_ : LevenbergMarquardtParams) (evs : list Event) : Prop :=
  ((elimination params_ =? MULTIFRONTAL)%Z = true → sequential_calls evs = 0)
  ∧ ((elimination params_ =? MULTIFRONTAL)%Z = false → multifrontal_calls evs = 0)
  ∧ linearized_at evs = []
  ∧ (silent params_ → printed evs = []).

(** The first [k] trials of a call on [current] in machine [m] all go on:
    each is rejected with lambda not at or above the upper bound. *)
Definition first_trials_go_on (params_ : LevenbergMarquardtParams)
    (current : LevenbergMarquardtState) (m : Machine) (useQR : bool) (k : nat) : Prop :=
  ∀ i, i < k →
    let lam := nth_lambda params_ (lambda current) i in
    goes_on params_ (verdict_at params_ current m useQR lam) lam.

End Console.

(** ** The discrete Bayes net *)

Module Discrete.

(** [DiscreteFactor::Values]: an assignment of a value to variables. *)
Abbreviation Values := (gmap Index nat).

(** Modelled from the spec: the class [DiscreteConditional] is declared and
    defined outside the sources at hand. A conditional is "an immutable
    discrete conditional probability table over one variable given parent
    variables": the variable, the number of values it takes, the parents,
    and the table, read at the parents' values and the variable's value. *)
Record DiscreteConditional : Type := mkConditional {
  variable : Index;
  cardinality : nat;
  parents : list Index;
  table : list nat → nat → float
}.

(** Modelled from the spec: [Signature] and the constructor of a conditional
    from it are declared outside the sources at hand; the conditional is
    built by "declarative construction from (variable id, parent ids,
    probability table)", so a signature is given as the conditional it
    describes. *)
Definition Signature : Type := DiscreteConditional.

(** The value an assignment gives a variable ([0] when it gives none: the
    look-up of a missing variable is outside the contract of the net). *)
Definition value_of (values : Values) (j : Index) : nat := default 0 (values !! j).

Definition parent_values (c : DiscreteConditional) (values : Values) : list nat :=
  value_of values <$> parents c.

(** Modelled from the spec: the call operator of a conditional on [values] is "each conditional's
    table value given the assignment restricted to its variable and parents". *)
Definition call (c : DiscreteConditional) (values : Values) : float :=
  table c (parent_values c values) (value_of values (variable c)).

(** The first value among [best :: todo] at which [p] is greatest. *)
Fixpoint argmax_from (p : nat → float) (best : nat) (todo : list nat) : nat :=
  match todo with
  | [] => best
  | v :: rest =>
      if Double.gt (p v) (p best) then argmax_from p v rest else argmax_from p best rest
  end.

Definition argmax (p : nat → float) (card : nat) : nat :=
  argmax_from p 0 (seq 1 (card - 1)).

(** Modelled from the spec: [DiscreteConditional::solveInPlace] is defined
    outside the sources at hand; it is "choosing the value of its own variable
    that maximizes the conditional probability given the already-assigned
    parent values", written into the assignment. Of several greatest values
    the first one is taken. *)
Definition solveInPlace (c : DiscreteConditional) (values : Values) : Values :=
  <[variable c := argmax (table c (parent_values c values)) (cardinality c)]> values.

(** [DiscreteBayesNet]: the conditionals in storage order. *)
Definition DiscreteBayesNet : Type := list DiscreteConditional.

(** [DiscreteBayesNet::add]. *)
Definition add (bn : DiscreteBayesNet) (s : Signature) : DiscreteBayesNet :=
  bn ++ [s].

(** [DiscreteBayesNet::evaluate]: [result] starts at [1.0] and is multiplied
    by each conditional in turn. *)
Definition evaluate (bn : DiscreteBayesNet) (values : Values) : float :=
  foldl (λ result conditional, (result * call conditional values)%float) 1%float bn.

(** [DiscreteBayesNet::optimize]: [result] starts empty and each conditional,
    last stored first, is solved in place. *)
Definition optimize (bn : DiscreteBayesNet) : Values :=
  foldl (λ result conditional, solveInPlace conditional result) ∅ (reverse bn).

(** *** Vocabulary for the properties of the net *)

(** The product of the first [n] numbers of a list, multiplied from the left. *)
Fixpoint product_upto (xs : list float) (n : nat) : float :=
  match n with
  | O => 1%float
  | S k => (product_upto xs k * nth k xs 1)%float
  end.

(** Valid elimination order: no variable has two conditionals, and the
    parents of a conditional are variables of conditionals stored after it. *)
Fixpoint valid_elimination_order (bn : DiscreteBayesNet) : Prop :=
  match bn with
  | [] => True
  | c :: rest =>
      (variable c ∉ (variable <$> rest))
      ∧ (∀ p, p ∈ parents c → p ∈ (variable <$> rest))
      ∧ valid_elimination_order rest
  end.

(** An assignment is complete when it gives every variable of the net one
    of its values. *)
Definition complete (bn : DiscreteBayesNet) (values : Values) : Prop :=
  ∀ c, c ∈ bn → ∃ v, values !! variable c = Some v ∧ v < cardinality c.

(** No complete assignment is more probable than [values]. *)
Definition most_probable (bn : DiscreteBayesNet) (values : Values) : Prop :=
  complete bn values ∧
  ∀ other, complete bn other →
    Double.gt (evaluate bn other) (evaluate bn values) = false.

(** A chain A -> B on which the parents-first choice is not the most
    probable assignment: P(A) = (0.625, 0.375), P(B|A=0) = (0.5625, 0.4375),
    P(B|A=1) = (1, 0). A is variable 0, B is variable 1. *)
Definition prior_A : DiscreteConditional :=
  mkConditional 0 2 [] (λ _ a, nth a [0.625; 0.375]%float 0%float).

Definition B_given_A : DiscreteConditional :=
  mkConditional 1 2 [0]
    (λ pa b, match pa with
             | [0] => nth b [0.5625; 0.4375]%float 0%float
             | [1] => nth b [1; 0]%float 0%float
             | _ => 0%float
             end).

Definition chain : DiscreteBayesNet := add (add [] B_given_A) prior_A.

End Discrete.

(** ** Sampling from the discrete Bayes net *)

Module Sampling.
Import Discrete.

Section Sample.
Context {Rng : Type}.

(** [DiscreteConditional::sampleInPlace] is defined outside the sources at
    hand; it is taken as given. It draws from a random number generator,
    whose state is [Rng], and writes into the assignment. *)
Context (sampleInPlace : DiscreteConditional → Values → Rng → Values * Rng).

(** [DiscreteBayesNet::sample]: [result] starts empty and each conditional,
    last stored first, is sampled in place. *)
Definition sample (bn : DiscreteBayesNet) (rng : Rng) : Values * Rng :=
  foldl (λ drawn conditional, sampleInPlace conditional drawn.1 drawn.2)
        (∅, rng) (reverse bn).

(** A sampler that writes the variable of its conditional, and nothing else. *)
Definition writes_own_variable : Prop :=
  ∀ c values rng, ∃ v, (sampleInPlace c values rng).1 = <[variable c := v]> values.

End Sample.

(** A sampler to run [sample] with: the generator is a list of numbers, and
    a draw takes the next one, modulo the number of values of the variable. *)
Definition draw_next (c : DiscreteConditional) (values : Values) (rng : list nat)
    : Values * list nat :=
  match rng with
  | [] => (<[variable c := 0]> values, [])
  | x :: rng' => (<[variable c := x mod cardinality c]> values, rng')
  end.

End Sampling.

(** ** A scalar least-squares problem to run [iterate] on *)

Module Scalar.

(** Values for the enumerators, in the order of their declarations. *)
#[export] Instance enumerators : Enumerators := {|
  LDL := 0; QR := 1;
  MULTIFRONTAL := 0; SEQUENTIAL := 1;
  ERROR := 1;
  LAMBDA := 1; TRYLAMBDA := 2; TRYDELTA := 4; DAMPED := 5
|}.

Local Open Scope float_scope.

(** The right-hand side of a scalar system: the sum of its linearized factors. *)
Fixpoint rhs (s : GaussianFactorGraph float) : float :=
  match s with
  | [] => 0
  | Linearized b :: s' => b + rhs s'
  | Jacobian _ :: s' => rhs s'
  end.

(** The damping of a scalar system: the sum of [1/sigma^2] over its priors. *)
Fixpoint damping (s : GaussianFactorGraph float) : float :=
  match s with
  | [] => 0
  | Linearized _ :: s' => damping s'
  | Jacobian f :: s' =>
      1 / (model_sigma (factor_model f) * model_sigma (factor_model f)) + damping s'
  end.

(** A solver of the damped scalar system [(1 + damping) * delta = rhs], which
    reports an indefinite system when the damping is below a threshold. *)
Definition solve (indefinite_below : float) (s : GaussianFactorGraph float)
    : Exception + float :=
  if Double.gt indefinite_below (damping s) then inl NegativeMatrixException
  else inr (rhs s / (1 + damping s)).

(** Minimize [(x - 3)^2]. The linearization scales the residual by [gain]
    (a gain above 1 overshoots, so that small damping makes the error worse);
    the sequential solver fails with another exception under QR. *)
Definition problem (gain indefinite_below : float) : Collaborators := {|
  Values := float;
  Ordering := unit;
  VectorValues := float;
  LinearFactor := float;
  ordering := λ _, ();
  graph_linearize := λ x _, [Linearized (gain * (3 - x))];
  graph_error := λ x, (x - 3) * (x - 3);
  dims := λ _ _, [1%nat];
  retract := λ x delta _, x + delta;
  GaussianMultifrontalSolver_optimize := λ s _, solve indefinite_below s;
  GaussianSequentialSolver_optimize := λ s useQR,
    if useQR then inl (other_exception 1) else solve indefinite_below s
|}.

(** A machine whose heap holds one state, at location 1. *)
Definition machine_with {C : Collaborators} (s : LevenbergMarquardtState) : Machine :=
  mkMachine {[ 1%positive := LevenbergMarquardtObject s ]} None [].

(** The state at estimate [x] with damping [lam], before any iteration. *)
Definition state_at {g ib : float} (x lam : float)
    : @LevenbergMarquardtState (problem g ib) :=
  mkState (x : @Values (problem g ib)) (@graph_error (problem g ib) x) 0 lam.

(** The state at estimate [x] with damping [lam] after [n] iterations. *)
Definition state_counting {g ib : float} (x lam : float) (n : Z)
    : @LevenbergMarquardtState (problem g ib) :=
  mkState (x : @Values (problem g ib)) (@graph_error (problem g ib) x) n lam.

(** The double nearest to 0.11, and its successor. *)
Definition eleven_hundredths : float := 0x1.c28f5c28f5c29p-4.
Definition eleven_hundredths_up : float := 0x1.c28f5c28f5c2ap-4.

Definition params (fact elim : Z) (factor bound : float) : LevenbergMarquardtParams :=
  mkParams 0 fact elim 0 0x1.4f8b588e368f1p-17 factor bound.

(** Parameters with the verbosity [ERROR], which prints the warning. *)
Definition params_warning (factor bound : float) : LevenbergMarquardtParams :=
  mkParams 1 0 0 0 0x1.4f8b588e368f1p-17 factor bound.

End Scalar.

(** * Properties *)

(** ** Runs of the optimizer's monad *)

Section LevenbergMarquardtProperties.
Context {E : Enumerators} {C : Collaborators}.
Implicit Types (m : Machine) (l : Locals) (evs : list Event).

Lemma extend_nil m : extend m [] = m.
Proof. destruct m. unfold extend. simpl. by rewrite app_nil_r. Qed.

Lemma extend_extend m evs evs' : extend (extend m evs) evs' = extend m (evs ++ evs').
Proof. unfold extend. simpl. by rewrite app_assoc. Qed.

Lemma bind_run {A B} (c : M A) (k : A → M B) m :
  (c ≫= k) m =
  match c m with
  | (Returns a, m') => k a m'
  | (Throws e, m') => (Throws e, m')
  | (Undefined, m') => (Undefined, m')
  | (OutOfFuel, m') => (OutOfFuel, m')
  end.
Proof. reflexivity. Qed.

Lemma ret_run {A} (a : A) m : (mret a : M A) m = (Returns a, m).
Proof. reflexivity. Qed.

Lemma bind_returns {A B} (c : M A) (k : A → M B) m a m' :
  c m = (Returns a, m') → (c ≫= k) m = k a m'.
Proof. intros H. rewrite bind_run, H. reflexivity. Qed.

Lemma cout_if_run level threshold msg m :
  cout_if level threshold msg m = (Returns (), extend m (cout_events level threshold msg)).
Proof.
  unfold cout_if, cout_events. destruct (threshold <=? level)%Z.
  - reflexivity.
  - by rewrite extend_nil.
Qed.

Lemma bind_cout_if {B} level threshold msg (k : unit → M B) m :
  (cout_if level threshold msg ≫= k) m = k () (extend m (cout_events level threshold msg)).
Proof. apply bind_returns, cout_if_run. Qed.

Lemma bind_emit {B} ev (k : unit → M B) m :
  (emit ev ≫= k) m = k () (extend m [ev]).
Proof. reflexivity. Qed.

Lemma linearizations_app evs evs' :
  linearizations (evs ++ evs') = linearizations evs + linearizations evs'.
Proof.
  induction evs as [|[] evs IH]; simpl; auto.
Qed.

Lemma solver_calls_app evs evs' :
  solver_calls (evs ++ evs') = solver_calls evs ++ solver_calls evs'.
Proof.
  induction evs as [|[] evs IH]; simpl; auto. all: by f_equal.
Qed.

Lemma linearizations_cout level threshold msg :
  linearizations (cout_events level threshold msg) = 0.
Proof. unfold cout_events. by destruct (threshold <=? level)%Z. Qed.

Lemma solver_calls_cout level threshold msg :
  solver_calls (cout_events level threshold msg) = [].
Proof. unfold cout_events. by destruct (threshold <=? level)%Z. Qed.

Ltac finish_run :=
  rewrite ?extend_extend; eexists; split; [reflexivity|];
  rewrite ?linearizations_app, ?solver_calls_app, ?linearizations_cout, ?solver_calls_cout;
  repeat match goal with
         | H : linearizations _ = _ |- _ => rewrite H; clear H
         | H : solver_calls _ = _ |- _ => rewrite H; clear H
         end;
  simpl; rewrite ?app_nil_r; auto.

Lemma reject_run params_ l m :
  ∃ evs, reject params_ l m = (Returns (after_rejection params_ l), extend m evs)
         ∧ linearizations evs = 0 ∧ solver_calls evs = [].
Proof.
  unfold reject, after_rejection.
  destruct (Double.ge (l_lambda l) (lambdaUpperBound params_)).
  - rewrite bind_cout_if. eexists. split; [reflexivity|].
    by rewrite linearizations_cout, solver_calls_cout.
  - exists []. by rewrite extend_nil.
Qed.

Ltac use_reject :=
  match goal with
  | |- context [reject ?p ?l ?m] =>
      let evs := fresh "evs" in
      let Hl := fresh "Hl" in
      let Hs := fresh "Hs" in
      destruct (reject_run p l m) as (evs & -> & Hl & Hs)
  end.

Lemma try_lambda_run params_ current o linear useQR dimensions l m :
  ∃ evs,
    try_lambda params_ current o linear useQR dimensions l m =
      (outcome params_ (trial params_ current o linear useQR dimensions (l_lambda l)) l,
       extend m evs)
    ∧ linearizations evs = 0
    ∧ solver_calls evs =
        match selected_solver params_ with
        | Some _ => [(damped_system linear dimensions (l_lambda l), useQR)]
        | None => []
        end.
Proof.
  unfold try_lambda, trial, selected_solver, multifrontal_optimize, sequential_optimize.
  fold (damped_system linear dimensions (l_lambda l)).
  rewrite !bind_cout_if. unfold try_catch.
  set (sys := damped_system linear dimensions (l_lambda l)).
  destruct (elimination params_ =? MULTIFRONTAL)%Z;
    [|destruct (elimination params_ =? SEQUENTIAL)%Z].
  1,2: rewrite bind_run, bind_emit; unfold lift_solver.
  1: destruct (GaussianMultifrontalSolver_optimize sys useQR) as [e|delta].
  3: destruct (GaussianSequentialSolver_optimize sys useQR) as [e|delta].
  1,3: destruct e; simpl; try finish_run.
  1,2: rewrite bind_cout_if; use_reject; finish_run.
  1,2: rewrite ret_run, !bind_cout_if;
       destruct (Double.le _ _); simpl; [|use_reject]; finish_run.
  finish_run.
Qed.

Lemma iterate_run fuel params_ p m current useQR :
  heap m !! p = Some (LevenbergMarquardtObject current) →
  useQR_of params_ = Some useQR →
  iterate fuel params_ p m =
    (while_true fuel (trials_of params_ current m useQR) (initial_locals current)
       ≫= λ l, make_shared (state_of current l)) (at_loop_entry m current).
Proof.
  intros Hp Hq. unfold iterate, useQR_of in *.
  rewrite bind_run. unfold dynamic_cast. rewrite Hp.
  rewrite bind_run. unfold linearize. rewrite bind_emit, ret_run.
  assert (Hcache : ∀ m', heap m' = heap m → dimensions_ m' = dimensions_ m →
            cached_dimensions (values current) (ordering (values current)) m' =
            (Returns (dimensions_in_use m current),
             mkMachine (heap m) (Some (dimensions_in_use m current)) (log m'))).
  { intros [h d g] Hh Hd. simpl in *. subst. unfold cached_dimensions, dimensions_in_use.
    simpl. by destruct (dimensions_ m). }
  destruct (factorization params_ =? LDL)%Z;
    [|destruct (factorization params_ =? QR)%Z; [|done]].
  all: injection Hq as <-.
  all: rewrite bind_run, ret_run, bind_run, Hcache by done; reflexivity.
Qed.

Lemma iterate_invalid_factorization fuel params_ p m current :
  heap m !! p = Some (LevenbergMarquardtObject current) →
  useQR_of params_ = None →
  iterate fuel params_ p m =
    (Throws (runtime_error
       "Optimization parameter is invalid: LevenbergMarquardtParams::factorization"),
     extend m [EvLinearize (values current) (ordering (values current))]).
Proof.
  intros Hp Hq. unfold iterate, useQR_of in *.
  rewrite bind_run. unfold dynamic_cast. rewrite Hp.
  rewrite bind_run. unfold linearize. rewrite bind_emit, ret_run.
  destruct (factorization params_ =? LDL)%Z; [done|].
  destruct (factorization params_ =? QR)%Z; [done|].
  reflexivity.
Qed.

Lemma add_priors_spec sigma dimensions : ∀ j (s : GaussianFactorGraph LinearFactor),
  add_priors sigma j dimensions s = s ++ imap (λ i, prior sigma (j + i)) dimensions.
Proof.
  induction dimensions as [|dim rest IH]; intros j s; simpl.
  - by rewrite app_nil_r.
  - rewrite IH, <- app_assoc. simpl. rewrite Nat.add_0_r. do 2 f_equal.
    apply imap_ext. intros i x _. simpl. f_equal. lia.
Qed.

Section Loop.
Context (params_ : LevenbergMarquardtParams) (current : LevenbergMarquardtState)
  (o : Ordering) (linear : GaussianFactorGraph LinearFactor) (useQR : bool)
  (dimensions : list nat).

Let body := try_lambda params_ current o linear useQR dimensions.
Let verdict := trial params_ current o linear useQR dimensions.
Let calls := attempts params_ linear dimensions useQR.

Lemma attempts_S lam n :
  calls lam (S n) =
  (damped_system linear dimensions lam, useQR)
    :: calls (lam * lambdaFactor params_)%float n.
Proof.
  unfold calls, attempts, damped_system. simpl. rewrite add_priors_spec. f_equal.
  rewrite <- fmap_S_seq, <- list_fmap_compose. reflexivity.
Qed.

Lemma outcome_goes_on l :
  goes_on params_ (verdict (l_lambda l)) (l_lambda l) →
  outcome params_ (verdict (l_lambda l)) l = Returns (Continue (grown params_ l)).
Proof.
  intros [Hr Hb]. unfold outcome, after_rejection. rewrite Hb.
  by destruct (verdict (l_lambda l)).
Qed.

Lemma outcome_shape l :
  match outcome params_ (verdict (l_lambda l)) l with
  | Returns (Break _) => is_Some (selected_solver params_)
  | Returns (Continue l') => is_Some (selected_solver params_) ∧ l' = grown params_ l
  | Throws _ => True
  | _ => False
  end.
Proof.
  unfold outcome, verdict, trial, after_rejection, grown.
  destruct (selected_solver params_) as [solve|]; [|done].
  destruct (solve _ useQR) as [[]|delta]; try done.
  all: repeat case_match; try done; simplify_eq; eauto.
Qed.

(** Every run of the loop only adds to the log: no linearization, and one
    solve attempt per trial, each on the damped system of its lambda. *)
Lemma while_true_log fuel l m :
  ∃ n evs,
    (while_true fuel body l m).2 = extend m evs
    ∧ n ≤ fuel
    ∧ (is_Some (selected_solver params_) → fuel ≠ 0 → n ≠ 0)
    ∧ linearizations evs = 0
    ∧ solver_calls evs = calls (l_lambda l) n.
Proof.
  revert l m. induction fuel as [|fuel IH]; intros l m.
  { exists 0, []. by rewrite extend_nil. }
  simpl. rewrite bind_run.
  destruct (try_lambda_run params_ current o linear useQR dimensions l m)
    as (evs & Hrun & Hl & Hs).
  fold body verdict in Hrun. rewrite Hrun.
  pose proof (outcome_shape l) as Hshape.
  destruct (outcome params_ _ l) as [[l'|l']|e | |]; try done.
  - destruct Hshape as [solve Hsolve]. rewrite Hsolve in Hs.
    exists 1, evs. rewrite Hs, attempts_S. repeat split; auto with lia.
  - destruct Hshape as [[solve Hsolve] ->]. rewrite Hsolve in Hs.
    destruct (IH (grown params_ l) (extend m evs))
      as (n & evs' & Hrun' & Hn & _ & Hl' & Hs').
    exists (S n), (evs ++ evs'). rewrite Hrun', extend_extend.
    rewrite linearizations_app, solver_calls_app, Hl, Hl', Hs, Hs', attempts_S.
    repeat split; auto with lia.
  - destruct (selected_solver params_) as [solve|].
    + exists 1, evs. rewrite Hs, attempts_S. repeat split; auto with lia.
    + exists 0, evs. repeat split; auto with lia. by intros [].
Qed.

Lemma goes_on_iff_continue l :
  goes_on params_ (verdict (l_lambda l)) (l_lambda l)
  ↔ ∃ l', outcome params_ (verdict (l_lambda l)) l = Returns (Continue l').
Proof.
  split; [intros Hgo; rewrite (outcome_goes_on l Hgo); eauto|].
  unfold outcome, after_rejection, goes_on. intros [l' Hout].
  destruct (verdict (l_lambda l)); try done.
  all: by destruct (Double.ge (l_lambda l) (lambdaUpperBound params_)).
Qed.

(** The solve attempts of a run of the loop are those of its trials: one
    per trial, each trial but the last having gone on, and the last one not,
    unless the fuel ran out; with no solver selected there is none. *)
Lemma while_true_trials fuel : ∀ l m,
  ∃ n evs,
    (while_true fuel body l m).2 = extend m evs
    ∧ n ≤ fuel
    ∧ (∀ i, S i < n →
         let lam := nth_lambda params_ (l_lambda l) i in goes_on params_ (verdict lam) lam)
    ∧ (n < fuel →
         let lam := nth_lambda params_ (l_lambda l) (n - 1) in
         ¬ goes_on params_ (verdict lam) lam)
    ∧ (is_Some (selected_solver params_) → fuel ≠ 0 → n ≠ 0)
    ∧ (selected_solver params_ = None → n = 0)
    ∧ linearizations evs = 0
    ∧ solver_calls evs = calls (l_lambda l) n.
Proof.
  induction fuel as [|fuel IH]; intros l m.
  { exists 0, []. rewrite extend_nil. repeat split; try done; intros; lia. }
  simpl. rewrite bind_run.
  destruct (try_lambda_run params_ current o linear useQR dimensions l m)
    as (evs & Hrun & Hl & Hs).
  fold body verdict in Hrun. rewrite Hrun.
  pose proof (outcome_shape l) as Hshape.
  pose proof (goes_on_iff_continue l) as Hgo.
  destruct (outcome params_ _ l) as [[l'|l']|e | |]; try done.
  - destruct Hshape as [solve Hsolve]. rewrite Hsolve in Hs.
    exists 1, evs. rewrite Hs, attempts_S, Hsolve.
    repeat split; try done; try lia.
    intros _ Hcont. apply Hgo in Hcont as [l'' [=]].
  - destruct Hshape as [[solve Hsolve] ->]. rewrite Hsolve in Hs.
    destruct (IH (grown params_ l) (extend m evs))
      as (n & evs' & Hrun' & Hn & Hbefore & Hlast & Hpos & _ & Hl' & Hs').
    exists (S n), (evs ++ evs'). rewrite Hrun', extend_extend.
    rewrite linearizations_app, solver_calls_app, Hl, Hl', Hs, Hs', attempts_S.
    split; [done|]. split; [lia|]. split; [|split; [|rewrite Hsolve; by repeat split]].
    + intros [|i] Hi; [apply Hgo; eauto|]. apply (Hbefore i). lia.
    + intros Hlt. assert (n ≠ 0) as Hne by (apply Hpos; [by rewrite Hsolve|lia]).
      destruct n as [|j]; [done|]. replace (S (S j) - 1) with (S j) by lia.
      replace (S j - 1) with j in Hlast by lia. apply Hlast. lia.
  - destruct (selected_solver params_) as [solve|].
    + exists 1, evs. rewrite Hs, attempts_S.
      repeat split; try done; try lia.
      intros _ Hcont. apply Hgo in Hcont as [l'' [=]].
    + exists 0, evs. repeat split; try done; try lia.
      intros _ Hcont. apply Hgo in Hcont as [l'' [=]].
Qed.

(** After [k] trials that go on, with fuel for one more, the loop has made
    more than [k] solve attempts. *)
Lemma while_true_attempts k : ∀ fuel l m,
  (∀ i, i < k →
     let lam := nth_lambda params_ (l_lambda l) i in goes_on params_ (verdict lam) lam) →
  is_Some (selected_solver params_) →
  ∃ n evs,
    (while_true (k + S fuel) body l m).2 = extend m evs
    ∧ k < n
    ∧ linearizations evs = 0
    ∧ solver_calls evs = calls (l_lambda l) n.
Proof.
  induction k as [|k IH]; intros fuel l m Hgo Hsel.
  { destruct (while_true_log (S fuel) l m) as (n & evs & Hrun & _ & Hn & Hl & Hs).
    exists n, evs. repeat split; auto. specialize (Hn Hsel). lia. }
  destruct (try_lambda_run params_ current o linear useQR dimensions l m)
    as (evs & Hrun & Hl & Hs).
  fold body verdict in Hrun.
  rewrite (outcome_goes_on l) in Hrun by (apply (Hgo 0); lia).
  destruct Hsel as [solve Hsolve]. rewrite Hsolve in Hs.
  destruct (IH fuel (grown params_ l) (extend m evs)) as (n & evs' & Hrest & Hn & Hl' & Hs').
  { intros i Hi. apply (Hgo (S i)). lia. }
  { by rewrite Hsolve. }
  exists (S n), (evs ++ evs'). change (S k + S fuel) with (S (k + S fuel)).
  simpl. rewrite bind_run, Hrun, Hrest, extend_extend.
  rewrite linearizations_app, solver_calls_app, Hl, Hl', Hs, Hs', attempts_S.
  repeat split; auto with lia.
Qed.

(** After [k] trials that go on, the loop is at the trial of the next lambda. *)
Lemma while_true_goes_on k : ∀ fuel l m,
  (∀ i, i < k → let lam := nth_lambda params_ (l_lambda l) i in goes_on params_ (verdict lam) lam) →
  ∃ evs,
    while_true (k + fuel) body l m =
      while_true fuel body
        (mkLocals (nth_lambda params_ (l_lambda l) k) (l_next_error l) (l_next_values l))
        (extend m evs).
Proof.
  induction k as [|k IH]; intros fuel l m Hgo.
  { exists []. rewrite extend_nil. by destruct l. }
  destruct (try_lambda_run params_ current o linear useQR dimensions l m)
    as (evs & Hrun & _).
  fold body verdict in Hrun.
  rewrite (outcome_goes_on l) in Hrun by (apply (Hgo 0); lia).
  destruct (IH fuel (grown params_ l) (extend m evs)) as (evs' & Hrest).
  { intros i Hi. apply (Hgo (S i)). lia. }
  exists (evs ++ evs'). simpl. rewrite bind_run, Hrun. simpl in Hrest.
  rewrite Hrest, extend_extend. reflexivity.
Qed.

(** One turn of the loop. *)
Lemma while_true_last fuel l m :
  ∃ evs,
    while_true (S fuel) body l m =
      match outcome params_ (verdict (l_lambda l)) l with
      | Returns (Break l') => (Returns l', extend m evs)
      | Returns (Continue l') => while_true fuel body l' (extend m evs)
      | Throws e => (Throws e, extend m evs)
      | Undefined => (Undefined, extend m evs)
      | OutOfFuel => (OutOfFuel, extend m evs)
      end
    ∧ linearizations evs = 0
    ∧ solver_calls evs =
        match selected_solver params_ with
        | Some _ => [(damped_system linear dimensions (l_lambda l), useQR)]
        | None => []
        end.
Proof.
  destruct (try_lambda_run params_ current o linear useQR dimensions l m)
    as (evs & Hrun & Hl & Hs).
  exists evs. split; [|done]. simpl. rewrite bind_run.
  fold body verdict in Hrun. rewrite Hrun.
  by destruct (outcome params_ _ l) as [[]| | |].
Qed.

Lemma trial_never_fails_negative lam : verdict lam ≠ Fail NegativeMatrixException.
Proof.
  unfold verdict, trial. destruct (selected_solver params_) as [solve|]; [|done].
  destruct (solve _ useQR) as [[]|delta]; try done. by case_match.
Qed.

(** [NegativeMatrixException] never leaves the loop. *)
Lemma while_true_never_negative fuel : ∀ l m,
  (while_true fuel body l m).1 ≠ Throws NegativeMatrixException.
Proof.
  induction fuel as [|fuel IH]; intros l m; [done|].
  destruct (while_true_last fuel l m) as (evs & -> & _).
  pose proof (trial_never_fails_negative (l_lambda l)) as Hfail.
  unfold outcome. destruct (verdict (l_lambda l)); simpl; try done.
  1,2: unfold after_rejection; case_match; [done|apply IH].
  congruence.
Qed.

(** The error that the loop returns is the current one or one that compared
    [<=] to it. *)
Lemma while_true_error fuel : ∀ l m l' m',
  while_true fuel body l m = (Returns l', m') →
  l_next_error l' = l_next_error l
  ∨ Double.le (l_next_error l') (error current) = true.
Proof.
  induction fuel as [|fuel IH]; intros l m l' m' Hrun; [done|].
  destruct (while_true_last fuel l m) as (evs & Hlast & _). rewrite Hlast in Hrun.
  unfold outcome, verdict, trial, after_rejection in Hrun.
  repeat case_match; simplify_eq; auto.
  all: by apply IH in Hrun.
Qed.

End Loop.

Lemma nth_lambda_S params_ : ∀ k lam,
  nth_lambda params_ lam (S k) = (nth_lambda params_ lam k * lambdaFactor params_)%float.
Proof. induction k as [|k IH]; intros lam; [done|]. simpl in *. by rewrite IH. Qed.

Lemma unsigned_int_small z : (0 ≤ z < 2 ^ 32)%Z → unsigned_int z = z.
Proof. intros Hz. unfold unsigned_int. by apply Z.mod_small. Qed.

Lemma unsigned_int_add_l a b : unsigned_int (unsigned_int a + b) = unsigned_int (a + b).
Proof. unfold unsigned_int. by rewrite Zplus_mod_idemp_l. Qed.

Lemma returned_state_make_shared s m : returned_state (make_shared s m) = Some s.
Proof. unfold returned_state, make_shared. simpl. by rewrite lookup_insert_eq. Qed.

Lemma useQR_of_None params_ :
  factorization params_ ≠ LDL → factorization params_ ≠ QR → useQR_of params_ = None.
Proof.
  intros H1 H2. unfold useQR_of.
  destruct (Z.eqb_spec (factorization params_) LDL); [done|].
  by destruct (Z.eqb_spec (factorization params_) QR).
Qed.

Lemma selected_solver_None params_ :
  elimination params_ ≠ MULTIFRONTAL → elimination params_ ≠ SEQUENTIAL →
  selected_solver params_ = None.
Proof.
  intros H1 H2. unfold selected_solver.
  destruct (Z.eqb_spec (elimination params_) MULTIFRONTAL); [done|].
  by destruct (Z.eqb_spec (elimination params_) SEQUENTIAL).
Qed.

(** A call whose first [k] trials go on ends as the trial at the next lambda
    decides, when the fuel reaches that trial and, for a rejection, lambda is
    at or above the bound. *)
Lemma iterate_last_trial k fuel params_ p m current useQR :
  heap m !! p = Some (LevenbergMarquardtObject current) →
  useQR_of params_ = Some useQR →
  (∀ i, i < k →
     let lam := nth_lambda params_ (lambda current) i in
     goes_on params_ (verdict_at params_ current m useQR lam) lam) →
  let lam := nth_lambda params_ (lambda current) k in
  let run := iterate (k + S fuel) params_ p m in
  match verdict_at params_ current m useQR lam with
  | Accept newValues err =>
      returned_state run =
        Some (mkState newValues err (unsigned_int (iterations current + 1))
                      (lam / lambdaFactor params_)%float)
  | Fail e => run.1 = Throws e
  | RejectWorse _ | RejectIndefinite =>
      Double.ge lam (lambdaUpperBound params_) = true →
      returned_state run =
        Some (mkState (values current) (error current)
                      (unsigned_int (iterations current + 1)) lam)
  end.
Proof.
  intros Hp Hq Hgo lam run. subst run. rewrite (iterate_run _ _ _ _ _ _ Hp Hq).
  rewrite bind_run. unfold trials_of, verdict_at in *.
  edestruct while_true_goes_on as (evs & ->); [exact Hgo|].
  edestruct while_true_last as (evs' & -> & _).
  unfold outcome, after_rejection, initial_locals.
  cbn [l_lambda l_next_error l_next_values]. fold lam.
  destruct (trial _ _ _ _ _ _ lam); cbv beta iota; try done.
  - by rewrite returned_state_make_shared.
  - intros ->. by rewrite returned_state_make_shared.
  - intros ->. by rewrite returned_state_make_shared.
Qed.

(** [iterate] changes no object of the heap; when it returns, it returns a
    new location, which owns a Levenberg-Marquardt state. *)
Lemma iterate_heap fuel params_ p m :
  match (iterate fuel params_ p m).1 with
  | Returns p' =>
      heap m !! p' = None
      ∧ ∃ s, heap (iterate fuel params_ p m).2 = <[p' := LevenbergMarquardtObject s]> (heap m)
  | _ => heap (iterate fuel params_ p m).2 = heap m
  end.
Proof.
  destruct (heap m !! p) as [[current|v e i]|] eqn:Hp.
  2,3: unfold iterate; rewrite bind_run; unfold dynamic_cast; by rewrite Hp.
  destruct (useQR_of params_) as [useQR|] eqn:Hq.
  2: by rewrite (iterate_invalid_factorization _ _ _ _ _ Hp Hq).
  rewrite (iterate_run _ _ _ _ _ _ Hp Hq), bind_run. unfold trials_of.
  destruct (while_true_log params_ current (ordering (values current))
              (graph_linearize (values current) (ordering (values current))) useQR
              (dimensions_in_use m current) fuel (initial_locals current)
              (at_loop_entry m current)) as (n & evs & Hlog & _).
  destruct (while_true _ _ _ _) as [c m'].
  simpl in Hlog. subst m'.
  destruct c; simpl; try done.
  split; [|eauto]. apply not_elem_of_dom, is_fresh.
Qed.

(** ** The claims about [iterate] *)

(** C1. The error of the state that [iterate] returns is the error of the
    input state or one that compared [<=] to it: a candidate is accepted only
    when its error is [<=] the current one, and every other way out of the
    loop keeps the current error. So the returned error is [<=] the input
    error whenever the input error is a number (it compares [<=] to itself,
    which every double but NaN does). *)
Theorem iterate_error_never_increases fuel params_ p m current p' m' :
  heap m !! p = Some (LevenbergMarquardtObject current) →
  iterate fuel params_ p m = (Returns p', m') →
  ∃ next,
    heap m' !! p' = Some (LevenbergMarquardtObject next)
    ∧ (error next = error current ∨ Double.le (error next) (error current) = true)
    ∧ (Double.le (error current) (error current) = true →
       Double.le (error next) (error current) = true).
Proof.
  intros Hp Hrun.
  destruct (useQR_of params_) as [useQR|] eqn:Hq.
  2: by rewrite (iterate_invalid_factorization _ _ _ _ _ Hp Hq) in Hrun.
  rewrite (iterate_run _ _ _ _ _ _ Hp Hq), bind_run in Hrun.
  destruct (while_true _ _ _ _) as [[l| | |] m''] eqn:Hloop; try done.
  unfold make_shared in Hrun. injection Hrun as <- <-.
  exists (state_of current l). simpl. rewrite lookup_insert_eq. split; [done|].
  apply while_true_error in Hloop as [->| ->]; auto.
Qed.

(** C2, as the code has it. With an invalid factorization selector or an
    invalid elimination selector, [iterate] on a Levenberg-Marquardt state
    throws a [runtime_error] before any solve attempt and before a new state
    is made, but after the graph was linearized, once. *)
Theorem iterate_configuration_error fuel params_ p m current :
  heap m !! p = Some (LevenbergMarquardtObject current) →
  (factorization params_ ≠ LDL ∧ factorization params_ ≠ QR)
  ∨ (elimination params_ ≠ MULTIFRONTAL ∧ elimination params_ ≠ SEQUENTIAL) →
  let r := iterate (S fuel) params_ p m in
  (∃ what, r.1 = Throws (runtime_error what))
  ∧ solver_calls (log r.2) = solver_calls (log m)
  ∧ linearizations (log r.2) = S (linearizations (log m))
  ∧ heap r.2 = heap m.
Proof.
  intros Hp Hbad r. subst r.
  destruct (useQR_of params_) as [useQR|] eqn:Hq.
  2: { rewrite (iterate_invalid_factorization _ _ _ _ _ Hp Hq). simpl.
       rewrite solver_calls_app, linearizations_app. simpl.
       rewrite app_nil_r, Nat.add_1_r. eauto. }
  destruct Hbad as [[H1 H2]|[H1 H2]].
  { by rewrite useQR_of_None in Hq. }
  pose proof (selected_solver_None _ H1 H2) as Hsel.
  rewrite (iterate_run _ _ _ _ _ _ Hp Hq), bind_run. unfold trials_of.
  edestruct while_true_last as (evs & -> & Hl & Hs).
  unfold outcome, trial. rewrite Hsel in Hs |- *. simpl.
  rewrite !solver_calls_app, !linearizations_app, Hl, Hs. simpl.
  rewrite !app_nil_r, Nat.add_0_r, Nat.add_1_r. eauto.
Qed.

(** C3, as the code has it. When a trial is rejected for a worse error
    while lambda is at or above the upper bound (the trials before it, if
    any, having been rejected below the bound), [iterate] returns a state
    with the estimate and the error of the input state, and with the count of
    iterations plus one as an [unsigned int]: one more below the greatest
    count [2^32 - 1], and zero after it. *)
Theorem iterate_gives_up_at_upper_bound k fuel params_ p m current useQR worse :
  heap m !! p = Some (LevenbergMarquardtObject current) →
  useQR_of params_ = Some useQR →
  (∀ i, i < k →
     let lam := nth_lambda params_ (lambda current) i in
     goes_on params_ (verdict_at params_ current m useQR lam) lam) →
  verdict_at params_ current m useQR (nth_lambda params_ (lambda current) k)
    = RejectWorse worse →
  Double.ge (nth_lambda params_ (lambda current) k) (lambdaUpperBound params_) = true →
  ∃ next,
    returned_state (iterate (k + S fuel) params_ p m) = Some next
    ∧ values next = values current
    ∧ error next = error current
    ∧ iterations next = unsigned_int (iterations current + 1)
    ∧ ((0 ≤ iterations current < 2 ^ 32 - 1)%Z →
       iterations next = (iterations current + 1)%Z)
    ∧ (iterations current = (2 ^ 32 - 1)%Z → iterations next = 0%Z).
Proof.
  intros Hp Hq Hgo Hworse Hbound.
  pose proof (iterate_last_trial k fuel _ _ _ _ _ Hp Hq Hgo) as Hlast.
  simpl in Hlast. rewrite Hworse in Hlast. rewrite (Hlast Hbound).
  eexists. split; [done|]. simpl. do 3 (split; [done|]). split.
  - intros Hrange. apply unsigned_int_small. lia.
  - intros ->. reflexivity.
Qed.

(** C4, as the code has it. When the first trial is accepted, the returned
    lambda is the input lambda divided by the growth factor. When one trial
    is rejected below the upper bound and the next one is accepted, the
    returned lambda is [(lambda * factor) / factor] in double arithmetic:
    the input lambda whenever that product and quotient round back to it. *)
Theorem iterate_lambda_after_acceptance fuel params_ p m current useQR :
  heap m !! p = Some (LevenbergMarquardtObject current) →
  useQR_of params_ = Some useQR →
  let lam := lambda current in
  let factor := lambdaFactor params_ in
  (∀ newValues err,
     verdict_at params_ current m useQR lam = Accept newValues err →
     ∃ next,
       returned_state (iterate (S fuel) params_ p m) = Some next
       ∧ lambda next = (lam / factor)%float)
  ∧ (∀ newValues err,
       goes_on params_ (verdict_at params_ current m useQR lam) lam →
       verdict_at params_ current m useQR (lam * factor)%float = Accept newValues err →
       ∃ next,
         returned_state (iterate (S (S fuel)) params_ p m) = Some next
         ∧ lambda next = ((lam * factor) / factor)%float
         ∧ ((lam * factor) / factor = lam → lambda next = lam)%float).
Proof.
  intros Hp Hq lam factor. split.
  - intros newValues err Hacc.
    pose proof (iterate_last_trial 0 fuel _ _ _ _ _ Hp Hq) as Hlast.
    simpl in Hlast. fold lam in Hlast. rewrite Hacc in Hlast.
    rewrite Hlast; [eauto|]. intros i Hi. lia.
  - intros newValues err Hgo Hacc.
    pose proof (iterate_last_trial 1 fuel _ _ _ _ _ Hp Hq) as Hlast.
    simpl in Hlast. fold lam factor in Hlast. rewrite Hacc in Hlast.
    rewrite Hlast.
    + eexists. split; [done|]. simpl. split; [done|]. by intros ->.
    + intros i Hi. assert (i = 0) as -> by lia. exact Hgo.
Qed.

(** C10. When the first trial is rejected (worse error, or an indefinite
    system) while the input lambda is at or above the upper bound, the
    returned lambda is the input lambda. *)
Theorem iterate_keeps_lambda_when_giving_up fuel params_ p m current useQR :
  heap m !! p = Some (LevenbergMarquardtObject current) →
  useQR_of params_ = Some useQR →
  rejected (verdict_at params_ current m useQR (lambda current)) = true →
  Double.ge (lambda current) (lambdaUpperBound params_) = true →
  ∃ next,
    returned_state (iterate (S fuel) params_ p m) = Some next
    ∧ lambda next = lambda current.
Proof.
  intros Hp Hq Hrej Hbound.
  pose proof (iterate_last_trial 0 fuel _ _ _ _ _ Hp Hq) as Hlast.
  simpl in Hlast.
  destruct (verdict_at _ _ _ _ _); try done.
  all: rewrite Hlast; [eauto| |done]; intros i Hi; lia.
Qed.

Lemma iterate_never_negative fuel params_ p m :
  (iterate fuel params_ p m).1 ≠ Throws NegativeMatrixException.
Proof.
  destruct (heap m !! p) as [[current|v e i]|] eqn:Hp.
  2,3: unfold iterate; rewrite bind_run; unfold dynamic_cast; by rewrite Hp.
  destruct (useQR_of params_) as [useQR|] eqn:Hq.
  2: by rewrite (iterate_invalid_factorization _ _ _ _ _ Hp Hq).
  rewrite (iterate_run _ _ _ _ _ _ Hp Hq), bind_run. unfold trials_of.
  pose proof (while_true_never_negative params_ current (ordering (values current))
                (graph_linearize (values current) (ordering (values current))) useQR
                (dimensions_in_use m current) fuel (initial_locals current)
                (at_loop_entry m current)) as Hloop.
  destruct (while_true _ _ _ _) as [[l|e| |] m']; simpl in *; try done.
  intros [= ->]. by apply Hloop.
Qed.

(** After [k] trials that go on, a call with fuel for one more trial makes
    a solve attempt on the damped system of the next lambda. *)
Lemma iterate_attempt k fuel params_ p m current useQR :
  heap m !! p = Some (LevenbergMarquardtObject current) →
  useQR_of params_ = Some useQR →
  is_Some (selected_solver params_) →
  (∀ i, i < k →
     let lam := nth_lambda params_ (lambda current) i in
     goes_on params_ (verdict_at params_ current m useQR lam) lam) →
  solver_calls (log (iterate (k + S fuel) params_ p m).2)
    !! (length (solver_calls (log m)) + k) =
  Some (damped_system (graph_linearize (values current) (ordering (values current)))
          (dimensions_in_use m current) (nth_lambda params_ (lambda current) k),
        useQR).
Proof.
  intros Hp Hq Hsel Hgo.
  rewrite (iterate_run _ _ _ _ _ _ Hp Hq), bind_run. unfold trials_of.
  destruct (while_true_attempts params_ current (ordering (values current))
              (graph_linearize (values current) (ordering (values current))) useQR
              (dimensions_in_use m current) k fuel (initial_locals current)
              (at_loop_entry m current) Hgo Hsel)
    as (n & evs & Hlog & Hn & Hl & Hs).
  destruct (while_true _ _ _ _) as [c m']. simpl in Hlog. subst m'.
  assert (Hm : ∀ c' : Completion SharedState * Machine,
            log c'.2 = log (extend (at_loop_entry m current) evs) →
            solver_calls (log c'.2) !! (length (solver_calls (log m)) + k) =
            Some (damped_system (graph_linearize (values current) (ordering (values current)))
                    (dimensions_in_use m current)
                    (nth_lambda params_ (lambda current) k), useQR)).
  { intros c' ->. simpl. rewrite !solver_calls_app, Hs. simpl.
    rewrite app_nil_r, lookup_app_r by lia. rewrite Nat.add_comm, Nat.add_sub.
    unfold attempts. rewrite list_lookup_fmap, lookup_seq_lt by done. simpl.
    unfold damped_system. by rewrite add_priors_spec. }
  destruct c; apply Hm; reflexivity.
Qed.

(** C5. A [NegativeMatrixException] of the solver is a rejected trial: at or
    above the upper bound the call gives up and returns the unchanged
    estimate and error; below it the turn of the loop ends with lambda
    multiplied by the growth factor, and the call goes on to a solve attempt
    on the system damped with that lambda. Any other exception of the solver
    leaves [iterate] as it is. No call throws [NegativeMatrixException]. *)
Theorem iterate_solver_failure k fuel params_ p m current useQR solve e :
  heap m !! p = Some (LevenbergMarquardtObject current) →
  useQR_of params_ = Some useQR →
  selected_solver params_ = Some solve →
  (∀ i, i < k →
     let lam := nth_lambda params_ (lambda current) i in
     goes_on params_ (verdict_at params_ current m useQR lam) lam) →
  let lam := nth_lambda params_ (lambda current) k in
  let linear := graph_linearize (values current) (ordering (values current)) in
  let dimensions := dimensions_in_use m current in
  solve (damped_system linear dimensions lam) useQR = inl e →
  match e with
  | NegativeMatrixException =>
      if Double.ge lam (lambdaUpperBound params_) then
        returned_state (iterate (k + S fuel) params_ p m) =
          Some (mkState (values current) (error current)
                      (unsigned_int (iterations current + 1)) lam)
      else
        (∀ l m', l_lambda l = lam →
           (trials_of params_ current m useQR l m').1 =
             Returns (Continue (mkLocals (lam * lambdaFactor params_)%float
                                         (l_next_error l) (l_next_values l))))
        ∧ solver_calls (log (iterate (k + S (S fuel)) params_ p m).2)
            !! (length (solver_calls (log m)) + S k) =
          Some (damped_system linear dimensions (lam * lambdaFactor params_)%float, useQR)
  | _ => (iterate (k + S fuel) params_ p m).1 = Throws e
  end
  ∧ ∀ fuel' q m', (iterate fuel' params_ q m').1 ≠ Throws NegativeMatrixException.
Proof.
  intros Hp Hq Hsel Hgo lam linear dimensions Hsolve.
  split; [|intros; apply iterate_never_negative].
  pose proof (iterate_last_trial k fuel _ _ _ _ _ Hp Hq Hgo) as Hlast.
  simpl in Hlast. fold lam in Hlast.
  assert (Hverdict : verdict_at params_ current m useQR lam =
            match e with NegativeMatrixException => RejectIndefinite | _ => Fail e end).
  { unfold verdict_at, trial. fold linear dimensions. rewrite Hsel, Hsolve. by destruct e. }
  rewrite Hverdict in Hlast.
  destruct e; try exact Hlast.
  destruct (Double.ge lam (lambdaUpperBound params_)) eqn:Hbound; [by apply Hlast|].
  split.
  - intros l m' Hl. unfold trials_of.
    edestruct try_lambda_run as (evs & -> & _). simpl. rewrite Hl.
    unfold verdict_at in Hverdict. rewrite Hverdict. simpl.
    unfold after_rejection. by rewrite Hl, Hbound.
  - replace (k + S (S fuel)) with (S k + S fuel) by lia.
    rewrite (iterate_attempt (S k) fuel _ _ _ _ _ Hp Hq); [|by rewrite Hsel|].
    + fold linear dimensions. by rewrite nth_lambda_S.
    + intros i Hi. destruct (decide (i = k)) as [->|Hne]; [|apply Hgo; lia].
      simpl. fold lam. rewrite Hverdict. done.
Qed.

(** C8. A call linearizes the graph exactly once, and makes one solve
    attempt per trial of the loop (each trial but the last was rejected below
    the bound, the last one was not unless the fuel ran out; at least one
    when a solver is selected and there is fuel, none when none is
    selected). Every attempt receives the linear system of that one
    linearization followed by one prior per dimension in use: on variable
    [j], with the identity matrix, the zero vector and the isotropic model
    of standard deviation [1/sqrt(lambda)], for the lambda of that trial. *)
Theorem iterate_damped_systems fuel params_ p m current useQR :
  heap m !! p = Some (LevenbergMarquardtObject current) →
  useQR_of params_ = Some useQR →
  let r := iterate fuel params_ p m in
  let linear := graph_linearize (values current) (ordering (values current)) in
  let dimensions := dimensions_in_use m current in
  linearizations (log r.2) = S (linearizations (log m))
  ∧ ∃ n, n ≤ fuel
      ∧ first_trials_go_on params_ current m useQR (n - 1)
      ∧ (n < fuel →
           let lam := nth_lambda params_ (lambda current) (n - 1) in
           ¬ goes_on params_ (verdict_at params_ current m useQR lam) lam)
      ∧ (is_Some (selected_solver params_) → fuel ≠ 0 → n ≠ 0)
      ∧ (selected_solver params_ = None → n = 0)
      ∧ solver_calls (log r.2) =
        solver_calls (log m) ++
        ((λ i,
            let sigma := (1 / PrimFloat.sqrt (nth_lambda params_ (lambda current) i))%float in
            (linear ++
               imap (λ j dim, Jacobian (mkJacobianFactor j (eye dim) (zero dim)
                                          (Isotropic_Sigma dim sigma)))
                    dimensions,
             useQR)) <$> seq 0 n).
Proof.
  intros Hp Hq r linear dimensions. subst r.
  rewrite (iterate_run _ _ _ _ _ _ Hp Hq), bind_run. unfold trials_of.
  destruct (while_true_trials params_ current (ordering (values current)) linear useQR
              dimensions fuel (initial_locals current) (at_loop_entry m current))
    as (n & evs & Hlog & Hn & Hbefore & Hlast & Hpos & Hnone & Hl & Hs).
  fold linear dimensions.
  destruct (while_true _ _ _ _) as [c m']. simpl in Hlog. subst m'.
  assert (Hm : ∀ c' : Completion SharedState * Machine,
            log c'.2 = log (extend (at_loop_entry m current) evs) →
            linearizations (log c'.2) = S (linearizations (log m))
            ∧ ∃ n, n ≤ fuel
                ∧ first_trials_go_on params_ current m useQR (n - 1)
                ∧ (n < fuel →
                     let lam := nth_lambda params_ (lambda current) (n - 1) in
                     ¬ goes_on params_ (verdict_at params_ current m useQR lam) lam)
                ∧ (is_Some (selected_solver params_) → fuel ≠ 0 → n ≠ 0)
                ∧ (selected_solver params_ = None → n = 0)
                ∧ solver_calls (log c'.2) =
                    solver_calls (log m) ++
                    attempts params_ linear dimensions useQR (lambda current) n).
  { intros c' ->. simpl.
    rewrite !linearizations_app, !solver_calls_app, Hl, Hs. simpl.
    rewrite app_nil_r. split; [lia|]. exists n. split; [done|].
    split; [intros i Hi; apply Hbefore; lia|]. by repeat split. }
  destruct c; apply Hm; reflexivity.
Qed.

(** C9. [iterate] changes no object that the heap holds, the input state
    among them; the pointer it returns is a new one, which owns a
    Levenberg-Marquardt state. *)
Theorem iterate_never_mutates fuel params_ p m :
  let r := iterate fuel params_ p m in
  (∀ q obj, heap m !! q = Some obj → heap r.2 !! q = Some obj)
  ∧ (∀ p', r.1 = Returns p' →
       heap m !! p' = None
       ∧ ∃ next, heap r.2 !! p' = Some (LevenbergMarquardtObject next)).
Proof.
  intros r. subst r. pose proof (iterate_heap fuel params_ p m) as Hheap.
  destruct (iterate fuel params_ p m) as [c m']. cbn [fst snd] in *.
  destruct c as [p'| | |]; try (rewrite Hheap; split; [done|by intros]).
  destruct Hheap as (Hnew & next & ->). split.
  - intros q obj Hq. rewrite lookup_insert_ne; [done|]. intros <-.
    by rewrite Hnew in Hq.
  - intros ? [= <-]. split; [done|]. exists next. by rewrite lookup_insert_eq.
Qed.

End LevenbergMarquardtProperties.

(** ** Order of doubles *)

Lemma SFltb_irrefl a : SFltb a a = false.
Proof.
  unfold SFltb, SFcompare. destruct a as [[]|[]| |[] m e]; try done.
  all: rewrite Z.compare_refl; fold (Pos.compare m m); by rewrite Pos.compare_refl.
Qed.

Lemma SFltb_trans a b c : SFltb a b = true → SFltb b c = true → SFltb a c = true.
Proof.
  unfold SFltb, SFcompare.
  destruct a as [[]|[]| |[] ma ea], b as [[]|[]| |[] mb eb], c as [[]|[]| |[] mc ec];
    try done.
  all: fold (Pos.compare ma mb); fold (Pos.compare mb mc); fold (Pos.compare ma mc).
  all: destruct (Z.compare_spec ea eb), (Z.compare_spec eb ec), (Z.compare_spec ea ec);
    try done; try lia.
  all: destruct (Pos.compare_spec ma mb), (Pos.compare_spec mb mc),
         (Pos.compare_spec ma mc); simpl; try done; try lia.
Qed.

(** A double that is [>= 0] is a number: it compares [<=] to itself. *)
Lemma le_refl_of_nonneg x : Double.le 0 x = true → Double.le x x = true.
Proof.
  unfold Double.le. rewrite !leb_spec.
  change (Prim2SF 0) with (S754_zero false).
  unfold SFleb, SFcompare. destruct (Prim2SF x) as [[]|[]| |[] m e]; try done.
  all: rewrite Z.compare_refl; fold (Pos.compare m m); by rewrite Pos.compare_refl.
Qed.

Lemma gt_irrefl x : Double.gt x x = false.
Proof. unfold Double.gt. rewrite ltb_spec. apply SFltb_irrefl. Qed.

Lemma gt_trans x y z :
  Double.gt x y = true → Double.gt y z = true → Double.gt x z = true.
Proof. unfold Double.gt. rewrite !ltb_spec. intros H1 H2. by eapply SFltb_trans. Qed.

Module DiscreteProperties.
Import Discrete.

Lemma product_upto_app xs ys n :
  n ≤ length xs → product_upto (xs ++ ys) n = product_upto xs n.
Proof.
  induction n as [|n IH]; intros Hn; [done|]. simpl.
  rewrite IH by lia. by rewrite app_nth1 by lia.
Qed.

Lemma evaluate_snoc bn c values :
  evaluate (bn ++ [c]) values = (evaluate bn values * call c values)%float.
Proof. unfold evaluate. by rewrite foldl_app. Qed.

(** C6. [evaluate] returns the product of the conditionals' table values
    under the assignment, multiplied from the left in storage order, starting
    from one; on the empty net it returns one. *)
Theorem evaluate_is_product_in_storage_order bn values :
  evaluate bn values = product_upto ((λ c, call c values) <$> bn) (length bn)
  ∧ evaluate [] values = 1%float.
Proof.
  split; [|done].
  induction bn as [|c bn IH] using rev_ind; [done|].
  rewrite evaluate_snoc, IH, fmap_app, length_app, Nat.add_1_r. simpl.
  rewrite product_upto_app by (rewrite length_fmap; lia).
  f_equal. rewrite app_nth2 by (rewrite length_fmap; lia).
  by rewrite length_fmap, Nat.sub_diag.
Qed.

Lemma argmax_from_spec p : ∀ (todo : list nat) best (seen : list nat),
  best ∈ seen →
  (∀ u, u ∈ seen → Double.gt (p u) (p best) = false) →
  argmax_from p best todo ∈ best :: todo
  ∧ ∀ u, u ∈ seen ∨ u ∈ todo → Double.gt (p u) (p (argmax_from p best todo)) = false.
Proof.
  induction todo as [|v todo IH]; intros best seen Hbest Hseen; simpl.
  { split; [apply elem_of_cons; auto|]. intros u [Hu|Hu%elem_of_nil]; [auto|done]. }
  destruct (Double.gt (p v) (p best)) eqn:Hv.
  - assert (Hin' : v ∈ v :: seen) by (apply elem_of_cons; auto).
    assert (Hseen' : ∀ u, u ∈ v :: seen → Double.gt (p u) (p v) = false).
    { intros u [->|Hu]%elem_of_cons; [apply gt_irrefl|].
      destruct (Double.gt (p u) (p v)) eqn:Huv; [|done].
      pose proof (Hseen u Hu) as Hub. by rewrite (gt_trans _ _ _ Huv Hv) in Hub. }
    pose proof (IH _ _ Hin' Hseen') as [Hin Hmax]. split.
    + apply elem_of_cons. right. exact Hin.
    + intros u Hu. apply Hmax. rewrite !elem_of_cons in *. tauto.
  - assert (Hin' : best ∈ v :: seen) by (apply elem_of_cons; auto).
    assert (Hseen' : ∀ u, u ∈ v :: seen → Double.gt (p u) (p best) = false).
    { intros u [->|Hu]%elem_of_cons; auto. }
    pose proof (IH _ _ Hin' Hseen') as [Hin Hmax]. split.
    + rewrite !elem_of_cons in *. tauto.
    + intros u Hu. apply Hmax. rewrite !elem_of_cons in *. tauto.
Qed.

Lemma argmax_spec p card :
  0 < card →
  argmax p card < card
  ∧ ∀ u, u < card → Double.gt (p u) (p (argmax p card)) = false.
Proof.
  intros Hcard. unfold argmax.
  destruct (argmax_from_spec p (seq 1 (card - 1)) 0 [0]) as [Hin Hmax].
  { apply list_elem_of_singleton. done. }
  { intros u ->%list_elem_of_singleton. apply gt_irrefl. }
  split.
  - apply elem_of_cons in Hin as [->|Hin%elem_of_seq]; lia.
  - intros u Hu. apply Hmax. destruct u; [left; by apply list_elem_of_singleton|right].
    apply elem_of_seq. lia.
Qed.

Lemma optimize_cons c bn : optimize (c :: bn) = solveInPlace c (optimize bn).
Proof. unfold optimize. by rewrite reverse_cons, foldl_app. Qed.

Lemma optimize_foldr bn : optimize bn = foldr solveInPlace ∅ bn.
Proof. induction bn as [|c bn IH]; [done|]. by rewrite optimize_cons, IH. Qed.

Lemma value_of_insert_ne values j k v : j ≠ k → value_of (<[j := v]> values) k = value_of values k.
Proof. intros Hjk. unfold value_of. by rewrite lookup_insert_ne. Qed.

Lemma parent_values_solveInPlace c c' values :
  variable c ∉ parents c' →
  parent_values c' (solveInPlace c values) = parent_values c' values.
Proof.
  intros Hnot. unfold parent_values, solveInPlace.
  apply list_fmap_ext. intros i j Hj. apply value_of_insert_ne.
  intros <-. apply Hnot. by eapply list_elem_of_lookup_2.
Qed.

Lemma valid_parents bn : valid_elimination_order bn →
  ∀ c p, c ∈ bn → p ∈ parents c → p ∈ (variable <$> bn).
Proof.
  induction bn as [|c0 bn IH]; intros Hvalid c p Hc Hp; [by apply elem_of_nil in Hc|].
  destruct Hvalid as (Hfresh & Hparents & Hvalid).
  rewrite fmap_cons. apply elem_of_cons. right.
  apply elem_of_cons in Hc as [->|Hc]; [by apply Hparents|by eapply IH].
Qed.

Lemma optimize_maximizes bn :
  valid_elimination_order bn →
  (∀ c, c ∈ bn → 0 < cardinality c) →
  ∀ c, c ∈ bn →
    ∃ v, optimize bn !! variable c = Some v
         ∧ v < cardinality c
         ∧ ∀ u, u < cardinality c →
             Double.gt (table c (parent_values c (optimize bn)) u)
                       (table c (parent_values c (optimize bn)) v) = false.
Proof.
  induction bn as [|c0 bn IH]; intros Hvalid Hcard c Hc; [by apply elem_of_nil in Hc|].
  destruct Hvalid as (Hfresh & Hparents & Hvalid).
  rewrite optimize_cons.
  apply elem_of_cons in Hc as [->|Hc].
  - rewrite parent_values_solveInPlace by (intros Hin; by apply Hfresh, Hparents).
    unfold solveInPlace. rewrite lookup_insert_eq.
    destruct (argmax_spec (table c0 (parent_values c0 (optimize bn))) (cardinality c0))
      as [Hlt Hmax]; [apply Hcard, elem_of_cons; auto|].
    eauto.
  - assert (variable c ∈ (variable <$> bn)) as Hvar by (by apply list_elem_of_fmap_2).
    rewrite parent_values_solveInPlace.
    2: { intros Hin. apply Hfresh. by eapply valid_parents. }
    unfold solveInPlace. rewrite lookup_insert_ne by (intros Heq; by rewrite Heq in Hfresh).
    apply IH; [done| |done]. intros c' Hc'. apply Hcard, elem_of_cons. auto.
Qed.

(** C7, as the code has it. [optimize] solves the conditionals in reverse
    storage order, starting from the empty assignment. On a net in valid
    elimination order whose variables each have a value to take, the result
    gives every variable one of its values, and no other value of the
    variable has a greater conditional probability given the values that the
    result gives the parents. On the empty net the result is empty. *)
Theorem optimize_parents_first bn :
  valid_elimination_order bn →
  (∀ c, c ∈ bn → 0 < cardinality c) →
  optimize bn = foldr solveInPlace ∅ bn
  ∧ (∀ c, c ∈ bn →
       ∃ v, optimize bn !! variable c = Some v
            ∧ v < cardinality c
            ∧ ∀ u, u < cardinality c →
                Double.gt (table c (parent_values c (optimize bn)) u)
                          (table c (parent_values c (optimize bn)) v) = false)
  ∧ optimize [] = ∅.
Proof.
  intros Hvalid Hcard. split; [apply optimize_foldr|]. split; [|done].
  by apply optimize_maximizes.
Qed.

Lemma chain_valid : valid_elimination_order chain.
Proof.
  unfold chain, add. simpl. split; [|split; [|split; [|split]]].
  - intros [Heq|[]%elem_of_nil]%elem_of_cons. discriminate Heq.
  - intros p [->|[]%elem_of_nil]%elem_of_cons. apply elem_of_cons. auto.
  - apply not_elem_of_nil.
  - intros p []%elem_of_nil.
  - done.
Qed.

(** C7, counterexample. On the chain A -> B, which is in valid elimination
    order, [optimize] returns A = 0, B = 0, of probability 0.3515625, while
    A = 1, B = 0 has probability 0.375: the result is not the most probable
    assignment. *)
Lemma optimize_not_most_probable :
  valid_elimination_order chain
  ∧ optimize chain = {[ 0 := 0; 1 := 0 ]}
  ∧ ¬ most_probable chain (optimize chain).
Proof.
  split; [apply chain_valid|]. split.
  { apply map_eq. intros [|[|i]]; vm_compute; reflexivity. }
  intros [_ Hmost].
  specialize (Hmost {[ 0 := 1; 1 := 0 ]}).
  assert (Hc : complete chain {[ 0 := 1; 1 := 0 ]}).
  { intros c Hc. unfold chain, add in Hc. simpl in Hc.
    apply elem_of_cons in Hc as [->|Hc]; [exists 0; split; [done|simpl; lia]|].
    apply list_elem_of_singleton in Hc as ->. exists 1. split; [done|simpl; lia]. }
  apply Hmost in Hc. vm_compute in Hc. discriminate.
Qed.

(** C7, witness: the chain A -> B. *)
Lemma optimize_parents_first_witness :
  optimize chain = foldr solveInPlace ∅ chain
  ∧ (∀ c, c ∈ chain →
       ∃ v, optimize chain !! variable c = Some v
            ∧ v < cardinality c
            ∧ ∀ u, u < cardinality c →
                Double.gt (table c (parent_values c (optimize chain)) u)
                          (table c (parent_values c (optimize chain)) v) = false)
  ∧ optimize [] = ∅.
Proof.
  apply (optimize_parents_first chain chain_valid).
  intros c Hc. unfold chain, add in Hc. simpl in Hc.
  apply elem_of_cons in Hc as [->|Hc]; [simpl; lia|].
  apply list_elem_of_singleton in Hc as ->. simpl. lia.
Defined.

End DiscreteProperties.

(** ** Runs on the scalar problem *)

Module ScalarRuns.
Import Scalar.
Local Open Scope float_scope.

(** C1, witness: from x = 0 with error 9, one rejected trial and then an
    accepted one of error 5.0625. *)
Lemma iterate_error_never_increases_witness :
  ∃ next : @LevenbergMarquardtState (problem 2.1875 0),
     heap (iterate 5 (params 0 0 4 1024) 1 (machine_with (state_at 0 0.0625))).2 !! 2%positive
       = Some (LevenbergMarquardtObject next)
     ∧ (error next = 9 ∨ Double.le (error next) 9 = true)
     ∧ (Double.le 9 9 = true → Double.le (error next) 9 = true).
Proof.
  apply (iterate_error_never_increases 5 (params 0 0 4 1024) 1%positive
           (machine_with (state_at 0 0.0625)) (state_at 0 0.0625) 2%positive
           (iterate 5 (params 0 0 4 1024) 1 (machine_with (state_at 0 0.0625))).2).
  - reflexivity.
  - vm_compute. reflexivity.
Defined.

(** C2, counterexample: with the factorization selector 7 the error is
    raised, but the log already holds the linearization at x = 0. *)
Lemma iterate_configuration_error_counterexample :
  let m := machine_with (@state_at 1 0 0 0.25) in
  let r := iterate 5 (params 7 0 4 1024) 1 m in
  factorization (params 7 0 4 1024) ≠ LDL
  ∧ factorization (params 7 0 4 1024) ≠ QR
  ∧ log r.2 = [EvLinearize (0 : @Values (problem 1 0)) ()]
  ∧ ¬ raised_at_start m r.
Proof.
  split; [vm_compute; lia|]. split; [vm_compute; lia|]. split; [reflexivity|].
  intros [_ Hlog]. vm_compute in Hlog. discriminate Hlog.
Defined.

(** C2, witness: the elimination selector 7. *)
Lemma iterate_configuration_error_witness :
  let m := machine_with (@state_at 1 0 0 0.25) in
  let r := iterate 5 (params 0 7 4 1024) 1 m in
  (∃ what, r.1 = Throws (runtime_error what))
  ∧ solver_calls (log r.2) = solver_calls (log m)
  ∧ linearizations (log r.2) = S (linearizations (log m))
  ∧ heap r.2 = heap m.
Proof.
  apply (iterate_configuration_error 4 (params 0 7 4 1024) 1%positive
           (machine_with (@state_at 1 0 0 0.25)) (state_at 0 0.25)).
  - reflexivity.
  - right. split; vm_compute; lia.
Defined.

(** C3, witness: the trial at 0.125 is rejected below the bound 0.25, the
    trial at 0.25 is rejected with error 81 at the bound. *)
Lemma iterate_gives_up_at_upper_bound_witness :
  ∃ next : @LevenbergMarquardtState (problem 5 0),
    returned_state (iterate (1 + 1) (params 0 0 2 0.25) 1 (machine_with (state_at 0 0.125)))
      = Some next
    ∧ values next = 0 ∧ error next = 9
    ∧ iterations next = unsigned_int (0 + 1)
    ∧ ((0 ≤ 0 < 2 ^ 32 - 1)%Z → iterations next = (0 + 1)%Z)
    ∧ (0%Z = (2 ^ 32 - 1)%Z → iterations next = 0%Z).
Proof.
  apply (iterate_gives_up_at_upper_bound 1 0 (params 0 0 2 0.25) 1%positive
           (machine_with (state_at 0 0.125)) (state_at 0 0.125) false 81).
  - reflexivity.
  - reflexivity.
  - intros i Hi. assert (i = 0%nat) as -> by lia. vm_compute. split; reflexivity.
  - vm_compute. reflexivity.
  - reflexivity.
Defined.

(** C3, counterexample: a state that counts [2^32 - 1] iterations. The first
    trial is rejected with error 81 at lambda 0.25, the bound, and the
    returned state counts 0 iterations, not [2^32]. *)
Lemma iterate_gives_up_at_upper_bound_counterexample :
  let current : @LevenbergMarquardtState (problem 5 0) :=
    state_counting 0 0.25 4294967295 in
  let params_ := params 0 0 2 0.25 in
  let m := machine_with current in
  verdict_at params_ current m false (lambda current) = RejectWorse 81
  ∧ Double.ge (lambda current) (lambdaUpperBound params_) = true
  ∧ iterations <$> returned_state (iterate 1 params_ 1 m) = Some 0%Z
  ∧ 0%Z ≠ (iterations current + 1)%Z.
Proof.
  split; [vm_compute; reflexivity|].
  split; [vm_compute; reflexivity|].
  split; [vm_compute; reflexivity|].
  vm_compute. discriminate.
Defined.

(** C4, counterexample: growth factor 10 and lambda 0.11. The trial at 0.11
    is rejected below the bound, the trial at 1.1 is accepted, and the
    returned lambda is the successor of the input lambda. *)
Lemma iterate_lambda_round_trip_counterexample :
  let current : @LevenbergMarquardtState (problem 2.5 0) := state_at 0 eleven_hundredths in
  let params_ := params 0 0 10 1024 in
  let m := machine_with current in
  goes_on params_ (verdict_at params_ current m false (lambda current)) (lambda current)
  ∧ accepted (verdict_at params_ current m false (lambda current * 10)) = true
  ∧ lambda <$> returned_state (iterate 2 params_ 1 m) = Some eleven_hundredths_up
  ∧ eleven_hundredths_up ≠ lambda current.
Proof.
  split; [vm_compute; split; reflexivity|].
  split; [vm_compute; reflexivity|].
  split; [vm_compute; reflexivity|].
  vm_compute. discriminate.
Defined.

(** C4, witness: a first trial accepted at lambda 0.25, and a trial rejected
    at 0.0625 followed by one accepted at 0.25; the growth factor is 4. *)
Lemma iterate_lambda_after_acceptance_witness :
  (∃ next : @LevenbergMarquardtState (problem 1.25 0),
     returned_state (iterate 1 (params 0 0 4 1024) 1 (machine_with (state_at 0 0.25)))
       = Some next
     ∧ lambda next = 0.25 / 4)
  ∧ (∃ next : @LevenbergMarquardtState (problem 2.1875 0),
       returned_state (iterate 2 (params 0 0 4 1024) 1 (machine_with (state_at 0 0.0625)))
         = Some next
       ∧ lambda next = (0.0625 * 4) / 4
       ∧ ((0.0625 * 4) / 4 = 0.0625 → lambda next = 0.0625)).
Proof.
  split.
  - refine (proj1 (iterate_lambda_after_acceptance 0 (params 0 0 4 1024) 1%positive
                     (machine_with (state_at 0 0.25)) (state_at 0 0.25) false
                     _ _) 3 0 _).
    + reflexivity.
    + reflexivity.
    + vm_compute. reflexivity.
  - refine (proj2 (iterate_lambda_after_acceptance 0 (params 0 0 4 1024) 1%positive
                     (machine_with (state_at 0 0.0625)) (state_at 0 0.0625) false
                     _ _) 5.25 5.0625 _ _).
    + reflexivity.
    + reflexivity.
    + vm_compute. split; reflexivity.
    + vm_compute. reflexivity.
Defined.

(** C5, witness: a solver that reports an indefinite system at lambda 0.25,
    below the bound 1024. *)
Lemma iterate_solver_failure_witness :
  let current : @LevenbergMarquardtState (problem 1 0.5) := state_at 0 0.25 in
  let m := machine_with current in
  ((∀ l m', l_lambda l = 0.25 →
      (trials_of (params 0 0 4 1024) current m false l m').1 =
        Returns (Continue (mkLocals (0.25 * 4) (l_next_error l) (l_next_values l))))
   ∧ solver_calls (log (iterate 2 (params 0 0 4 1024) 1 m).2) !! 1%nat =
       Some (damped_system (graph_linearize (values current) (ordering (values current)))
                           (dimensions_in_use m current) (0.25 * 4), false))
  ∧ ∀ fuel' q (m' : @Machine (problem 1 0.5)),
      (iterate fuel' (params 0 0 4 1024) q m').1 ≠ Throws NegativeMatrixException.
Proof.
  apply (iterate_solver_failure 0 0 (params 0 0 4 1024) 1%positive
           (machine_with (@state_at 1 0.5 0 0.25)) (state_at 0 0.25) false
           GaussianMultifrontalSolver_optimize NegativeMatrixException).
  - reflexivity.
  - reflexivity.
  - reflexivity.
  - intros i Hi. lia.
  - vm_compute. reflexivity.
Defined.

(** C8, witness: a call of two trials, and so of two solve attempts. *)
Lemma iterate_damped_systems_witness :
  let current : @LevenbergMarquardtState (problem 2.1875 0) := state_at 0 0.0625 in
  let m := machine_with current in
  let r := iterate 5 (params 0 0 4 1024) 1 m in
  let linear := graph_linearize (values current) (ordering (values current)) in
  let dimensions := dimensions_in_use m current in
  (linearizations (log r.2) = S (linearizations (log m))
   ∧ ∃ n, (n ≤ 5)%nat
       ∧ first_trials_go_on (params 0 0 4 1024) current m false (n - 1)%nat
       ∧ ((n < 5)%nat →
            let lam := nth_lambda (params 0 0 4 1024) (lambda current) (n - 1)%nat in
            ¬ goes_on (params 0 0 4 1024)
                (verdict_at (params 0 0 4 1024) current m false lam) lam)
       ∧ (is_Some (selected_solver (C := problem 2.1875 0) (params 0 0 4 1024)) →
            5%nat ≠ 0%nat → n ≠ 0%nat)
       ∧ (selected_solver (C := problem 2.1875 0) (params 0 0 4 1024) = None → n = 0%nat)
       ∧ solver_calls (log r.2) =
         solver_calls (log m) ++
         ((λ i,
             let sigma := 1 / PrimFloat.sqrt (nth_lambda (params 0 0 4 1024) (lambda current) i) in
             (linear ++
                imap (λ j dim, Jacobian (mkJacobianFactor j (eye dim) (zero dim)
                                           (Isotropic_Sigma dim sigma)))
                     dimensions,
              false)) <$> seq 0 n))
  ∧ length (solver_calls (log r.2)) = 2%nat.
Proof.
  split.
  - apply (iterate_damped_systems 5 (params 0 0 4 1024) 1%positive
             (machine_with (@state_at 2.1875 0 0 0.0625)) (state_at 0 0.0625) false).
    + reflexivity.
    + reflexivity.
  - vm_compute. reflexivity.
Defined.

(** C10, witness: the first trial is rejected at lambda 0.25, the bound. *)
Lemma iterate_keeps_lambda_when_giving_up_witness :
  ∃ next : @LevenbergMarquardtState (problem 5 0),
    returned_state (iterate 1 (params 0 0 2 0.25) 1 (machine_with (state_at 0 0.25)))
      = Some next
    ∧ lambda next = 0.25.
Proof.
  apply (iterate_keeps_lambda_when_giving_up 0 (params 0 0 2 0.25) 1%positive
           (machine_with (state_at 0 0.25)) (state_at 0 0.25) false).
  - reflexivity.
  - reflexivity.
  - vm_compute. reflexivity.
  - reflexivity.
Defined.

End ScalarRuns.

(** * More of the code *)

(** ** More of [iterate] *)

Section MoreOfIterate.
Context {E : Enumerators} {C : Collaborators}.
Implicit Types (m : Machine) (l : Locals) (evs : list Event).

Lemma printed_app evs evs' : printed (evs ++ evs') = printed evs ++ printed evs'.
Proof. induction evs as [|[] evs IH]; simpl; auto. by f_equal. Qed.

Lemma warnings_app evs evs' : warnings (evs ++ evs') = warnings evs + warnings evs'.
Proof. induction evs as [|[| | |[]] evs IH]; simpl; auto. Qed.

Lemma multifrontal_calls_app evs evs' :
  multifrontal_calls (evs ++ evs') = multifrontal_calls evs + multifrontal_calls evs'.
Proof. induction evs as [|[] evs IH]; simpl; auto. Qed.

Lemma sequential_calls_app evs evs' :
  sequential_calls (evs ++ evs') = sequential_calls evs + sequential_calls evs'.
Proof. induction evs as [|[] evs IH]; simpl; auto. Qed.

Lemma linearized_at_app evs evs' :
  linearized_at (evs ++ evs') = linearized_at evs ++ linearized_at evs'.
Proof. induction evs as [|[] evs IH]; simpl; auto. by f_equal. Qed.

(** What one event list of [cout_if] adds to the projections of a log. *)
Lemma cout_events_calls level threshold msg :
  multifrontal_calls (cout_events level threshold msg) = 0
  ∧ sequential_calls (cout_events level threshold msg) = 0
  ∧ linearized_at (cout_events level threshold msg) = [].
Proof. unfold cout_events. by destruct (threshold <=? level)%Z. Qed.

Lemma cout_events_silent level threshold msg :
  (level < threshold)%Z → cout_events level threshold msg = [].
Proof. intros Hlt. unfold cout_events. by rewrite (proj2 (Z.leb_gt _ _) Hlt). Qed.

Lemma warnings_cout_events level threshold msg :
  warnings (cout_events level threshold msg) =
  match msg with
  | giving_up => if (threshold <=? level)%Z then 1 else 0
  | _ => 0
  end.
Proof. unfold cout_events. by destruct (threshold <=? level)%Z, msg. Qed.

Lemma quiet_nil params_ : quiet params_ [].
Proof. by repeat split. Qed.

Lemma quiet_app params_ evs evs' :
  quiet params_ evs → quiet params_ evs' → quiet params_ (evs ++ evs').
Proof.
  intros (H1 & H2 & H3 & H4) (H1' & H2' & H3' & H4').
  unfold quiet. rewrite sequential_calls_app, multifrontal_calls_app,
    linearized_at_app, printed_app, H3, H3'.
  repeat split; try done.
  - intros H. by rewrite H1, H1'.
  - intros H. by rewrite H2, H2'.
  - intros H. by rewrite H4, H4'.
Qed.

Lemma quiet_cout params_ level threshold msg :
  (silent params_ → (level < threshold)%Z) →
  quiet params_ (cout_events level threshold msg).
Proof.
  intros Hs. destruct (cout_events_calls level threshold msg) as (H1 & H2 & H3).
  repeat split; try done. intros Hsilent. by rewrite cout_events_silent by auto.
Qed.

Lemma quiet_multifrontal params_ s q :
  (elimination params_ =? MULTIFRONTAL)%Z = true → quiet params_ [EvMultifrontal s q].
Proof. intros H. repeat split; try done. by rewrite H. Qed.

Lemma quiet_sequential params_ s q :
  (elimination params_ =? MULTIFRONTAL)%Z = false → quiet params_ [EvSequential s q].
Proof. intros H. repeat split; try done. by rewrite H. Qed.

Ltac quiet_events :=
  repeat apply quiet_app;
  first [ assumption
        | apply quiet_nil
        | by apply quiet_multifrontal
        | by apply quiet_sequential
        | apply quiet_cout; intros (? & ? & ? & ? & ?); assumption ].

Lemma reject_events params_ l m :
  ∃ evs, reject params_ l m = (Returns (after_rejection params_ l), extend m evs)
         ∧ quiet params_ evs
         ∧ warnings evs =
             if Double.ge (l_lambda l) (lambdaUpperBound params_)
             then warning_count params_ else 0.
Proof.
  unfold reject, after_rejection.
  destruct (Double.ge (l_lambda l) (lambdaUpperBound params_)).
  - rewrite bind_cout_if. eexists. split; [reflexivity|]. split; [quiet_events|].
    by rewrite warnings_cout_events.
  - exists []. rewrite extend_nil. split; [done|]. split; [apply quiet_nil|done].
Qed.

Ltac use_reject_events :=
  match goal with
  | |- context [reject ?p ?l ?m] =>
      let evs := fresh "evs" in
      let Hq := fresh "Hq" in
      let Hw := fresh "Hw" in
      destruct (reject_events p l m) as (evs & -> & Hq & Hw)
  end.

Ltac finish_events :=
  rewrite ?extend_extend; eexists; split; [reflexivity|]; split; [quiet_events|];
  rewrite ?warnings_app, ?warnings_cout_events;
  repeat match goal with H : warnings _ = _ |- _ => rewrite H; clear H end;
  simpl; auto.

(** One turn of the loop, with what it adds to the log. *)
Lemma try_lambda_events params_ current o linear useQR dimensions l m :
  ∃ evs,
    try_lambda params_ current o linear useQR dimensions l m =
      (outcome params_ (trial params_ current o linear useQR dimensions (l_lambda l)) l,
       extend m evs)
    ∧ quiet params_ evs
    ∧ warnings evs =
        if rejected (trial params_ current o linear useQR dimensions (l_lambda l))
           && Double.ge (l_lambda l) (lambdaUpperBound params_)
        then warning_count params_ else 0.
Proof.
  unfold try_lambda, trial, selected_solver, multifrontal_optimize, sequential_optimize.
  fold (damped_system linear dimensions (l_lambda l)).
  rewrite !bind_cout_if. unfold try_catch.
  set (sys := damped_system linear dimensions (l_lambda l)).
  destruct (elimination params_ =? MULTIFRONTAL)%Z eqn:Hmf;
    [|destruct (elimination params_ =? SEQUENTIAL)%Z eqn:Hseq].
  1,2: rewrite bind_run, bind_emit; unfold lift_solver.
  1: destruct (GaussianMultifrontalSolver_optimize sys useQR) as [e|delta].
  3: destruct (GaussianSequentialSolver_optimize sys useQR) as [e|delta].
  1,3: destruct e; simpl; try finish_events.
  1,2: rewrite bind_cout_if; use_reject_events; finish_events.
  1,2: rewrite ret_run, !bind_cout_if;
       destruct (Double.le _ _); simpl; [|use_reject_events]; finish_events.
  finish_events.
Qed.

Section MoreOfTheLoop.
Context (params_ : LevenbergMarquardtParams) (current : LevenbergMarquardtState)
  (o : Ordering) (linear : GaussianFactorGraph LinearFactor) (useQR : bool)
  (dimensions : list nat).

Let body := try_lambda params_ current o linear useQR dimensions.
Let verdict := trial params_ current o linear useQR dimensions.

(** The first [k] trials from [lam] on all go on. *)
Let all_go_on (lam : float) (k : nat) : Prop :=
  ∀ i, i < k →
    let lam_i := nth_lambda params_ lam i in goes_on params_ (verdict lam_i) lam_i.

Lemma all_go_on_S lam k :
  goes_on params_ (verdict lam) lam →
  all_go_on (lam * lambdaFactor params_)%float k →
  all_go_on lam (S k).
Proof. intros H0 Hk [|i] Hi; [exact H0|]. apply Hk. lia. Qed.

Ltac reject_case :=
  match goal with
  | IH : ∀ l m, ∃ evs, _, Hv : verdict (l_lambda ?l) = _, Hq : quiet _ ?evs,
    Hw : warnings ?evs = _ |- context [extend ?m ?evs] =>
      unfold after_rejection;
      destruct (Double.ge (l_lambda l) (lambdaUpperBound params_)) eqn:Hge;
      simpl in Hw |- *;
      [ exists evs; split; [done|]; split; [done|]; exists 0;
        split; [lia|]; split; [intros i Hi; lia|]; simpl; rewrite Hv; by destruct l
      | set (l1 := mkLocals (l_lambda l * lambdaFactor params_)%float
                            (l_next_error l) (l_next_values l));
        destruct (IH l1 (extend m evs)) as (evs' & Hrun' & Hq' & Hcase);
        exists (evs ++ evs'); rewrite Hrun', extend_extend;
        split; [done|]; split; [by apply quiet_app|];
        rewrite warnings_app, Hw;
        destruct ((while_true _ body l1 (extend m evs)).1) as [l'|e'| |];
        [ destruct Hcase as (k & Hk & Hgo & Hres); exists (S k);
          split; [lia|]; split; [apply all_go_on_S; [by split; [rewrite Hv|]|done]|];
          exact Hres
        | destruct Hcase as (k & Hk & Hgo & Hres); exists (S k);
          split; [lia|]; split; [apply all_go_on_S; [by split; [rewrite Hv|]|done]|];
          exact Hres
        | done
        | destruct Hcase as (Hgo & Hres);
          split; [apply all_go_on_S; [by split; [rewrite Hv|]|done]|done] ] ]
  end.

(** Every way in which the loop can end, with what the run added to the log. *)
Lemma while_true_cases fuel : ∀ l m,
  ∃ evs,
    (while_true fuel body l m).2 = extend m evs
    ∧ quiet params_ evs
    ∧ match (while_true fuel body l m).1 with
      | Returns l' =>
          ∃ k, k < fuel ∧ all_go_on (l_lambda l) k ∧
            let lam := nth_lambda params_ (l_lambda l) k in
            match verdict lam with
            | Accept newValues err =>
                l' = mkLocals (lam / lambdaFactor params_)%float err newValues
                ∧ warnings evs = 0
            | RejectWorse _ | RejectIndefinite =>
                Double.ge lam (lambdaUpperBound params_) = true
                ∧ l' = mkLocals lam (l_next_error l) (l_next_values l)
                ∧ warnings evs = warning_count params_
            | Fail _ => False
            end
      | Throws e =>
          ∃ k, k < fuel ∧ all_go_on (l_lambda l) k
               ∧ verdict (nth_lambda params_ (l_lambda l) k) = Fail e
               ∧ warnings evs = 0
      | OutOfFuel => all_go_on (l_lambda l) fuel ∧ warnings evs = 0
      | Undefined => False
      end.
Proof.
  induction fuel as [|fuel IH]; intros l m.
  { exists []. rewrite extend_nil. split; [done|]. split; [apply quiet_nil|].
    simpl. split; [|done]. intros i Hi. lia. }
  destruct (try_lambda_events params_ current o linear useQR dimensions l m)
    as (evs & Hrun & Hq & Hw).
  fold body verdict in Hrun, Hw. simpl. rewrite bind_run, Hrun.
  unfold outcome.
  destruct (verdict (l_lambda l)) as [v e|w| |e] eqn:Hv; simpl in Hw |- *.
  - exists evs. split; [done|]. split; [done|]. exists 0.
    split; [lia|]. split; [intros i Hi; lia|]. simpl. by rewrite Hv.
  - reject_case.
  - reject_case.
  - exists evs. split; [done|]. split; [done|]. exists 0.
    split; [lia|]. split; [intros i Hi; lia|]. done.
Qed.

End MoreOfTheLoop.

(** Every way in which a call on a Levenberg-Marquardt state with a valid
    factorization selector can end. *)
Lemma iterate_cases fuel params_ p m current useQR :
  heap m !! p = Some (LevenbergMarquardtObject current) →
  useQR_of params_ = Some useQR →
  ∃ evs,
    log (iterate fuel params_ p m).2 =
      log m ++ EvLinearize (values current) (ordering (values current)) :: evs
    ∧ quiet params_ evs
    ∧ dimensions_ (iterate fuel params_ p m).2 = Some (dimensions_in_use m current)
    ∧ match (iterate fuel params_ p m).1 with
      | Returns p' =>
          ∃ k next, k < fuel ∧ first_trials_go_on params_ current m useQR k
            ∧ heap m !! p' = None
            ∧ heap (iterate fuel params_ p m).2 = <[p' := LevenbergMarquardtObject next]> (heap m)
            ∧ iterations next = unsigned_int (iterations current + 1)
            ∧ let lam := nth_lambda params_ (lambda current) k in
              match verdict_at params_ current m useQR lam with
              | Accept newValues err =>
                  values next = newValues ∧ error next = err
                  ∧ lambda next = (lam / lambdaFactor params_)%float
                  ∧ warnings evs = 0
              | RejectWorse _ | RejectIndefinite =>
                  Double.ge lam (lambdaUpperBound params_) = true
                  ∧ values next = values current ∧ error next = error current
                  ∧ lambda next = lam
                  ∧ warnings evs = warning_count params_
              | Fail _ => False
              end
      | Throws e =>
          heap (iterate fuel params_ p m).2 = heap m
          ∧ ∃ k, k < fuel ∧ first_trials_go_on params_ current m useQR k
                 ∧ verdict_at params_ current m useQR
                     (nth_lambda params_ (lambda current) k) = Fail e
                 ∧ warnings evs = 0
      | OutOfFuel =>
          heap (iterate fuel params_ p m).2 = heap m
          ∧ first_trials_go_on params_ current m useQR fuel ∧ warnings evs = 0
      | Undefined => False
      end.
Proof.
  intros Hp Hq. rewrite (iterate_run _ _ _ _ _ _ Hp Hq), bind_run. unfold trials_of.
  destruct (while_true_cases params_ current (ordering (values current))
              (graph_linearize (values current) (ordering (values current))) useQR
              (dimensions_in_use m current) fuel (initial_locals current)
              (at_loop_entry m current)) as (evs & Hlog & Hquiet & Hcase).
  destruct (while_true _ _ _ _) as [c m']. simpl in Hlog, Hcase. subst m'.
  exists evs. unfold first_trials_go_on, verdict_at.
  destruct c as [l'|e| |]; simpl; rewrite <- ?app_assoc; simpl.
  - split; [done|]. split; [done|]. split; [done|].
    destruct Hcase as (k & Hk & Hgo & Hres).
    exists k, (state_of current l'). split; [done|]. split; [done|].
    split; [apply not_elem_of_dom, is_fresh|]. split; [done|]. split; [done|].
    simpl. destruct (trial _ _ _ _ _ _ _); try done.
    + by destruct Hres as [-> ?].
    + by destruct Hres as (? & -> & ?).
    + by destruct Hres as (? & -> & ?).
  - destruct Hcase as (k & Hk & Hgo & Hres & Hw).
    do 4 (split; [done|]). by exists k.
  - destruct Hcase.
  - destruct Hcase as (Hgo & Hw). by do 4 (split; [done|]).
Qed.

Lemma trial_accept_inv params_ current o linear useQR dimensions lam newValues err :
  trial params_ current o linear useQR dimensions lam = Accept newValues err →
  ∃ solve delta,
    selected_solver params_ = Some solve
    ∧ solve (damped_system linear dimensions lam) useQR = inr delta
    ∧ newValues = retract (values current) delta o
    ∧ err = graph_error newValues
    ∧ Double.le err (error current) = true.
Proof.
  unfold trial. destruct (selected_solver params_) as [solve|]; [|done].
  destruct (solve _ useQR) as [[]|delta] eqn:Hsolve; try done.
  destruct (Double.le _ _) eqn:Hle; [|done]. intros [= <- <-]. eauto 10.
Qed.

Lemma trial_fail_inv params_ current o linear useQR dimensions lam e :
  trial params_ current o linear useQR dimensions lam = Fail e →
  (selected_solver params_ = None
   ∧ e = runtime_error
       "Optimization parameter is invalid: LevenbergMarquardtParams::elimination")
  ∨ (∃ solve, selected_solver params_ = Some solve
       ∧ solve (damped_system linear dimensions lam) useQR = inl e
       ∧ e ≠ NegativeMatrixException).
Proof.
  unfold trial. destruct (selected_solver params_) as [solve|].
  - destruct (solve _ useQR) as [e'|delta] eqn:Hsolve.
    + destruct e'; try done; intros [= <-]; right; by exists solve.
    + by destruct (Double.le _ _).
  - intros [= <-]. by left.
Qed.

(** The four ways in which a call can start. *)
Lemma iterate_starts fuel params_ p m :
  (∃ current useQR, heap m !! p = Some (LevenbergMarquardtObject current)
     ∧ useQR_of params_ = Some useQR)
  ∨ (∃ current, heap m !! p = Some (LevenbergMarquardtObject current)
       ∧ useQR_of params_ = None
       ∧ iterate fuel params_ p m =
           (Throws (runtime_error
              "Optimization parameter is invalid: LevenbergMarquardtParams::factorization"),
            extend m [EvLinearize (values current) (ordering (values current))]))
  ∨ ((∃ v e i, heap m !! p = Some (OtherStateObject v e i))
       ∧ iterate fuel params_ p m = (Throws bad_cast, m))
  ∨ (heap m !! p = None ∧ iterate fuel params_ p m = (Undefined, m)).
Proof.
  destruct (heap m !! p) as [[current|v e i]|] eqn:Hp.
  - destruct (useQR_of params_) as [useQR|] eqn:Hq; [left; eauto|].
    right. left. exists current. split; [done|]. split; [done|].
    by apply iterate_invalid_factorization.
  - do 2 right. left. split; [eauto|].
    unfold iterate. rewrite bind_run. unfold dynamic_cast. by rewrite Hp.
  - do 3 right. split; [done|].
    unfold iterate. rewrite bind_run. unfold dynamic_cast. by rewrite Hp.
Qed.

(** X1. Every state that [iterate] returns is one of two: an accepted
    candidate (the retraction of the current values by a step that the
    selected solver returned for the damped system of the last trial, with
    its error under the graph, which compared [<=] to the current error, and
    the lambda of that trial divided by the growth factor), or the current
    values and error with the lambda of a last trial that was rejected at or
    above the upper bound. Either way the count of iterations is the current
    one plus one as an [unsigned int] (zero after [2^32 - 1]), and all trials
    before the last were rejected below the bound. *)
Theorem iterate_returned_state fuel params_ p m current p' m' :
  heap m !! p = Some (LevenbergMarquardtObject current) →
  iterate fuel params_ p m = (Returns p', m') →
  ∃ useQR k next,
    useQR_of params_ = Some useQR
    ∧ k < fuel
    ∧ first_trials_go_on params_ current m useQR k
    ∧ heap m' !! p' = Some (LevenbergMarquardtObject next)
    ∧ iterations next = unsigned_int (iterations current + 1)
    ∧ let lam := nth_lambda params_ (lambda current) k in
      let o := ordering (values current) in
      (∃ solve delta,
          selected_solver params_ = Some solve
          ∧ solve (damped_system (graph_linearize (values current) o)
                     (dimensions_in_use m current) lam) useQR = inr delta
          ∧ values next = retract (values current) delta o
          ∧ error next = graph_error (values next)
          ∧ Double.le (error next) (error current) = true
          ∧ lambda next = (lam / lambdaFactor params_)%float)
      ∨ (rejected (verdict_at params_ current m useQR lam) = true
         ∧ Double.ge lam (lambdaUpperBound params_) = true
         ∧ values next = values current
         ∧ error next = error current
         ∧ lambda next = lam).
Proof.
  intros Hp Hrun.
  destruct (useQR_of params_) as [useQR|] eqn:Hq.
  2: by rewrite (iterate_invalid_factorization _ _ _ _ _ Hp Hq) in Hrun.
  destruct (iterate_cases fuel _ _ _ _ _ Hp Hq) as (evs & _ & _ & _ & Hcase).
  rewrite Hrun in Hcase. simpl in Hcase.
  destruct Hcase as (k & next & Hk & Hgo & Hnew & -> & Hit & Hres).
  exists useQR, k, next. rewrite lookup_insert_eq. do 5 (split; [done|]).
  simpl in *. destruct (verdict_at _ _ _ _ _) as [v e| | |] eqn:Hv; try done.
  - left. destruct Hres as (-> & -> & -> & _).
    apply trial_accept_inv in Hv as (solve & delta & ? & ? & ? & ? & ?).
    exists solve, delta. by subst.
  - right. by destruct Hres as (? & ? & ? & ? & _).
  - right. by destruct Hres as (? & ? & ? & ? & _).
Qed.

(** X2. [iterate] keeps a state consistent: when the error of the input
    state is the error of its values under the graph, so is the error of
    the returned state. *)
Theorem iterate_keeps_error_of_values fuel params_ p m current p' m' :
  heap m !! p = Some (LevenbergMarquardtObject current) →
  error current = graph_error (values current) →
  iterate fuel params_ p m = (Returns p', m') →
  ∃ next,
    heap m' !! p' = Some (LevenbergMarquardtObject next)
    ∧ error next = graph_error (values next).
Proof.
  intros Hp Herr Hrun.
  destruct (useQR_of params_) as [useQR|] eqn:Hq.
  2: by rewrite (iterate_invalid_factorization _ _ _ _ _ Hp Hq) in Hrun.
  destruct (iterate_cases fuel _ _ _ _ _ Hp Hq) as (evs & _ & _ & _ & Hcase).
  rewrite Hrun in Hcase. simpl in Hcase.
  destruct Hcase as (k & next & Hk & Hgo & Hnew & -> & Hit & Hres).
  exists next. rewrite lookup_insert_eq. split; [done|].
  simpl in *. destruct (verdict_at _ _ _ _ _) as [v e| | |] eqn:Hv; try done.
  - destruct Hres as (-> & -> & _).
    by apply trial_accept_inv in Hv as (solve & delta & ? & ? & ? & ? & ?).
  - destruct Hres as (_ & -> & -> & _). done.
  - destruct Hres as (_ & -> & -> & _). done.
Qed.

(** X3. Every exception that [iterate] throws is one of four: [bad_cast],
    for a state of another optimizer, thrown before anything is done; the
    [runtime_error] of the factorization selector; the [runtime_error] of the
    elimination selector; or an exception other than
    [NegativeMatrixException] that the selected solver threw on the damped
    system of a trial. The heap is as it was before the call. *)
Theorem iterate_thrown_exception fuel params_ p m e m' :
  iterate fuel params_ p m = (Throws e, m') →
  heap m' = heap m
  ∧ ((e = bad_cast ∧ m' = m ∧ ∃ v err i, heap m !! p = Some (OtherStateObject v err i))
     ∨ (e = runtime_error
              "Optimization parameter is invalid: LevenbergMarquardtParams::factorization"
          ∧ factorization params_ ≠ LDL ∧ factorization params_ ≠ QR)
     ∨ (e = runtime_error
              "Optimization parameter is invalid: LevenbergMarquardtParams::elimination"
          ∧ elimination params_ ≠ MULTIFRONTAL ∧ elimination params_ ≠ SEQUENTIAL)
     ∨ (∃ current useQR solve k,
          heap m !! p = Some (LevenbergMarquardtObject current)
          ∧ useQR_of params_ = Some useQR
          ∧ selected_solver params_ = Some solve
          ∧ k < fuel
          ∧ first_trials_go_on params_ current m useQR k
          ∧ solve (damped_system (graph_linearize (values current) (ordering (values current)))
                     (dimensions_in_use m current)
                     (nth_lambda params_ (lambda current) k)) useQR = inl e
          ∧ e ≠ NegativeMatrixException)).
Proof.
  intros Hrun.
  destruct (iterate_starts fuel params_ p m)
    as [(current & useQR & Hp & Hq)|[(current & Hp & Hq & Hthrow)
        |[(Hother & Hthrow)|(_ & Hundef)]]].
  - destruct (iterate_cases fuel _ _ _ _ _ Hp Hq) as (evs & _ & _ & _ & Hcase).
    rewrite Hrun in Hcase. simpl in Hcase.
    destruct Hcase as (Hheap & k & Hk & Hgo & Hfail & _). split; [done|].
    apply trial_fail_inv in Hfail as [[Hsel ->]|(solve & Hsel & Hsolve & Hne)].
    + do 2 right. left. split; [done|]. unfold selected_solver in Hsel.
      destruct (Z.eqb_spec (elimination params_) MULTIFRONTAL); [done|].
      by destruct (Z.eqb_spec (elimination params_) SEQUENTIAL).
    + do 3 right. exists current, useQR, solve, k. eauto 10.
  - rewrite Hthrow in Hrun. injection Hrun as <- <-. split; [done|].
    right. left. split; [done|]. unfold useQR_of in Hq.
    destruct (Z.eqb_spec (factorization params_) LDL); [done|].
    by destruct (Z.eqb_spec (factorization params_) QR).
  - rewrite Hthrow in Hrun. injection Hrun as <- <-. split; [done|]. by left.
  - by rewrite Hundef in Hrun.
Qed.

Lemma nth_lambda_fixed params_ lam :
  (lam * lambdaFactor params_)%float = lam → ∀ k, nth_lambda params_ lam k = lam.
Proof. intros Hfix. induction k as [|k IH]; [done|]. simpl. by rewrite Hfix. Qed.

(** A call all of whose trials go on runs out of fuel. *)
Lemma iterate_goes_on fuel params_ p m current useQR :
  heap m !! p = Some (LevenbergMarquardtObject current) →
  useQR_of params_ = Some useQR →
  first_trials_go_on params_ current m useQR fuel →
  (iterate fuel params_ p m).1 = OutOfFuel.
Proof.
  intros Hp Hq Hgo. rewrite (iterate_run _ _ _ _ _ _ Hp Hq), bind_run. unfold trials_of.
  replace fuel with (fuel + 0) at 1 by lia.
  edestruct while_true_goes_on as (evs & ->); [exact Hgo|]. done.
Qed.

(** X4. A call has not ended after [fuel] trials exactly when each of these
    trials was rejected with lambda not at or above the upper bound; no state
    was made by then. *)
Theorem iterate_still_running fuel params_ p m current useQR :
  heap m !! p = Some (LevenbergMarquardtObject current) →
  useQR_of params_ = Some useQR →
  ((iterate fuel params_ p m).1 = OutOfFuel
   ↔ first_trials_go_on params_ current m useQR fuel)
  ∧ ((iterate fuel params_ p m).1 = OutOfFuel →
     heap (iterate fuel params_ p m).2 = heap m).
Proof.
  intros Hp Hq.
  destruct (iterate_cases fuel _ _ _ _ _ Hp Hq) as (evs & _ & _ & _ & Hcase).
  split; [split|].
  - intros Hout. rewrite Hout in Hcase. by destruct Hcase as (_ & ? & _).
  - by apply iterate_goes_on.
  - intros Hout. rewrite Hout in Hcase. by destruct Hcase as (? & _).
Qed.

(** X5. When multiplying lambda by the growth factor gives lambda back (a
    growth factor of one, a lambda of zero or infinity) and the trial at
    lambda is rejected below the upper bound, the loop never ends: the call
    is still running after any number of trials. *)
Theorem iterate_never_ends fuel params_ p m current useQR :
  heap m !! p = Some (LevenbergMarquardtObject current) →
  useQR_of params_ = Some useQR →
  (lambda current * lambdaFactor params_)%float = lambda current →
  goes_on params_ (verdict_at params_ current m useQR (lambda current)) (lambda current) →
  (iterate fuel params_ p m).1 = OutOfFuel.
Proof.
  intros Hp Hq Hfix Hgo. apply (iterate_goes_on _ _ _ _ _ _ Hp Hq).
  intros i _. simpl. by rewrite (nth_lambda_fixed _ _ Hfix).
Qed.

(** X6. The cache of dimensions: once set it never changes; a call on a
    Levenberg-Marquardt state with a valid factorization selector leaves it
    set, however the call ends, to the dimensions that the call used, and
    every later call uses these, whatever its state; any other call leaves
    the cache as it was. *)
Theorem iterate_dimensions_cache fuel params_ p m :
  let r := iterate fuel params_ p m in
  (∀ d, dimensions_ m = Some d → dimensions_ r.2 = Some d)
  ∧ (∀ current useQR,
       heap m !! p = Some (LevenbergMarquardtObject current) →
       useQR_of params_ = Some useQR →
       dimensions_ r.2 = Some (dimensions_in_use m current)
       ∧ ∀ later, dimensions_in_use r.2 later = dimensions_in_use m current)
  ∧ ((∀ current, heap m !! p ≠ Some (LevenbergMarquardtObject current))
     ∨ useQR_of params_ = None →
     dimensions_ r.2 = dimensions_ m).
Proof.
  intros r. subst r.
  destruct (iterate_starts fuel params_ p m)
    as [(current & useQR & Hp & Hq)|[(current & Hp & Hq & ->)|[(Hother & ->)|(Hp & ->)]]].
  - destruct (iterate_cases fuel _ _ _ _ _ Hp Hq) as (evs & _ & _ & Hdim & _).
    split; [|split].
    + intros d Hd. rewrite Hdim. unfold dimensions_in_use. by rewrite Hd.
    + intros current' useQR' Hp' _. rewrite Hp in Hp'. injection Hp' as <-.
      split; [done|]. intros later. unfold dimensions_in_use at 1. by rewrite Hdim.
    + intros [Hno|Hno]; [by destruct (Hno current)|by rewrite Hq in Hno].
  - split; [done|]. split; [|done]. intros ? ? _ Hq'. by rewrite Hq in Hq'.
  - split; [done|]. split; [|done]. intros current ? Hp.
    destruct Hother as (v & e & i & Hother). by rewrite Hother in Hp.
  - split; [done|]. split; [|done]. intros current ? Hp'. by rewrite Hp in Hp'.
Qed.

Lemma printed_linearize evs v o : printed (evs ++ EvLinearize v o :: []) = printed evs.
Proof. by rewrite printed_app, app_nil_r. Qed.

(** What a call adds to the log: nothing, or the linearization at the
    current values followed by events that are [quiet]. *)
Lemma iterate_log fuel params_ p m :
  log (iterate fuel params_ p m).2 = log m
  ∧ (∀ current, heap m !! p ≠ Some (LevenbergMarquardtObject current))
  ∨ ∃ current evs,
      heap m !! p = Some (LevenbergMarquardtObject current)
      ∧ log (iterate fuel params_ p m).2 =
          log m ++ EvLinearize (values current) (ordering (values current)) :: evs
      ∧ quiet params_ evs.
Proof.
  destruct (iterate_starts fuel params_ p m)
    as [(current & useQR & Hp & Hq)|[(current & Hp & Hq & ->)|[(Hother & ->)|(Hp & ->)]]].
  - destruct (iterate_cases fuel _ _ _ _ _ Hp Hq) as (evs & Hlog & Hquiet & _).
    right. by exists current, evs.
  - right. exists current, []. split; [done|]. split; [done|]. apply quiet_nil.
  - left. split; [done|]. intros current Hp.
    destruct Hother as (v & e & i & Hother). by rewrite Hother in Hp.
  - left. split; [done|]. intros current Hp'. by rewrite Hp in Hp'.
Qed.

(** X7. With every verbosity below the thresholds, a call prints nothing.
    Whatever the verbosity, a call prints the warning of giving up at most
    once, and only when the verbosity is at or above [ERROR] and the call
    returns a state with the estimate and the error of the input state. *)
Theorem iterate_console fuel params_ p m :
  let r := iterate fuel params_ p m in
  (silent params_ → printed (log r.2) = printed (log m))
  ∧ (warnings (log r.2) = warnings (log m)
     ∨ (warnings (log r.2) = S (warnings (log m))
        ∧ (ERROR ≤ verbosity params_)%Z
        ∧ ∃ current next,
            heap m !! p = Some (LevenbergMarquardtObject current)
            ∧ returned_state r = Some next
            ∧ values next = values current
            ∧ error next = error current)).
Proof.
  intros r. subst r. split.
  - intros Hsilent.
    destruct (iterate_log fuel params_ p m) as [[-> _]|(current & evs & _ & -> & Hquiet)];
      [done|].
    destruct Hquiet as (_ & _ & _ & Hpr).
    rewrite printed_app. simpl. by rewrite (Hpr Hsilent), app_nil_r.
  - destruct (iterate_starts fuel params_ p m)
      as [(current & useQR & Hp & Hq)|[(current & Hp & Hq & ->)|[(Hother & ->)|(Hp & ->)]]].
    2: { left. simpl. rewrite warnings_app. simpl. lia. }
    2,3: by left.
    destruct (iterate_cases fuel _ _ _ _ _ Hp Hq) as (evs & Hlog & _ & _ & Hcase).
    rewrite Hlog, warnings_app. simpl.
    destruct (iterate fuel params_ p m) as [[p'| | |] m'] eqn:Hrun; simpl in Hcase.
    + destruct Hcase as (k & next & Hk & Hgo & Hnew & Hheap & Hit & Hres).
      simpl in Hres. unfold warning_count in Hres.
      destruct (verdict_at _ _ _ _ _); [| | |done].
      { destruct Hres as (_ & _ & _ & ->). left. lia. }
      all: destruct Hres as (? & ? & ? & ? & ->).
      all: destruct (Z.leb_spec ERROR (verbosity params_)); [|left; lia].
      all: right; split; [lia|]; split; [done|]; exists current, next;
        unfold returned_state; rewrite Hheap, lookup_insert_eq; done.
    + destruct Hcase as (_ & k & _ & _ & _ & ->). left. lia.
    + done.
    + destruct Hcase as (_ & _ & ->). left. lia.
Qed.

(** Two trials that end a run of trials that go on are the same trial. *)
Lemma last_trial_unique params_ current m useQR k k' :
  first_trials_go_on params_ current m useQR k →
  first_trials_go_on params_ current m useQR k' →
  (let lam := nth_lambda params_ (lambda current) k in
   ¬ goes_on params_ (verdict_at params_ current m useQR lam) lam) →
  (let lam := nth_lambda params_ (lambda current) k' in
   ¬ goes_on params_ (verdict_at params_ current m useQR lam) lam) →
  k = k'.
Proof.
  intros Hgo Hgo' Hend Hend'.
  destruct (Nat.lt_trichotomy k k') as [Hlt|[Heq|Hlt]]; [|done|].
  - destruct Hend. by apply Hgo'.
  - destruct Hend'. by apply Hgo.
Qed.

(** X8. When a call gives up (a trial rejected with lambda at or above the
    upper bound, after trials rejected below it), it prints the warning once
    if the verbosity is at or above [ERROR], and not at all otherwise. *)
Theorem iterate_warns_when_giving_up k fuel params_ p m current useQR :
  heap m !! p = Some (LevenbergMarquardtObject current) →
  useQR_of params_ = Some useQR →
  first_trials_go_on params_ current m useQR k →
  rejected (verdict_at params_ current m useQR (nth_lambda params_ (lambda current) k))
    = true →
  Double.ge (nth_lambda params_ (lambda current) k) (lambdaUpperBound params_) = true →
  warnings (log (iterate (k + S fuel) params_ p m).2) =
    warnings (log m) + (if (ERROR <=? verbosity params_)%Z then 1 else 0).
Proof.
  intros Hp Hq Hgo Hrej Hge.
  assert (Hend : let lam := nth_lambda params_ (lambda current) k in
            ¬ goes_on params_ (verdict_at params_ current m useQR lam) lam).
  { intros lam [_ Hlow]. subst lam. by rewrite Hge in Hlow. }
  destruct (iterate_cases (k + S fuel) _ _ _ _ _ Hp Hq) as (evs & Hlog & _ & _ & Hcase).
  rewrite Hlog, warnings_app. simpl. f_equal.
  destruct ((iterate (k + S fuel) params_ p m).1) as [p'|e| |].
  - destruct Hcase as (k' & next & Hk & Hgo' & _ & _ & _ & Hres). simpl in Hres.
    assert (k = k') as <-.
    { apply (last_trial_unique _ _ _ _ _ _ Hgo Hgo' Hend). intros lam [Hrej' Hlow].
      subst lam. destruct (verdict_at _ _ _ _ (nth_lambda _ _ k')); try done.
      all: destruct Hres as (Hge' & _); by rewrite Hge' in Hlow. }
    destruct (verdict_at _ _ _ _ _); try done. all: by destruct Hres as (_ & _ & _ & _ & ?).
  - destruct Hcase as (_ & k' & Hk & Hgo' & Hfail & _).
    assert (k = k') as <-.
    { apply (last_trial_unique _ _ _ _ _ _ Hgo Hgo' Hend). intros lam [Hrej' _].
      subst lam. by rewrite Hfail in Hrej'. }
    by rewrite Hfail in Hrej.
  - done.
  - destruct Hcase as (_ & Hgo' & _). destruct Hend. apply Hgo'. lia.
Qed.

(** X9. A call only calls the solver that the elimination selector names:
    with [MULTIFRONTAL] never the sequential solver, with any other selector
    never the multifrontal one. *)
Theorem iterate_calls_selected_solver fuel params_ p m :
  let r := iterate fuel params_ p m in
  (elimination params_ = MULTIFRONTAL →
   sequential_calls (log r.2) = sequential_calls (log m))
  ∧ (elimination params_ ≠ MULTIFRONTAL →
     multifrontal_calls (log r.2) = multifrontal_calls (log m)).
Proof.
  intros r. subst r.
  destruct (iterate_log fuel params_ p m)
    as [[-> _]|(current & evs & _ & -> & Hs & Hm & _)]; [done|].
  rewrite sequential_calls_app, multifrontal_calls_app. simpl. split.
  - intros Heq. rewrite Hs; [lia|]. by apply Z.eqb_eq.
  - intros Hne. rewrite Hm; [lia|]. by apply Z.eqb_neq.
Qed.

(** X10. A call on a Levenberg-Marquardt state asks for one linearization,
    at the values of that state (never at a candidate), however it ends; a
    call on another state asks for none. *)
Theorem iterate_linearizes_at_current fuel params_ p m :
  let r := iterate fuel params_ p m in
  (∀ current, heap m !! p = Some (LevenbergMarquardtObject current) →
     linearized_at (log r.2) = linearized_at (log m) ++ [values current])
  ∧ ((∀ current, heap m !! p ≠ Some (LevenbergMarquardtObject current)) →
     linearized_at (log r.2) = linearized_at (log m)).
Proof.
  intros r. subst r.
  destruct (iterate_log fuel params_ p m)
    as [[-> Hno]|(current & evs & Hp & -> & _ & _ & Hlin & _)].
  - split; [|done]. intros current Hp. by destruct (Hno current).
  - split.
    + intros current' Hp'. rewrite Hp in Hp'. injection Hp' as <-.
      rewrite linearized_at_app. simpl. by rewrite Hlin.
    + intros Hno. by destruct (Hno current).
Qed.

(** X11. Two calls in a row: the second call linearizes at the values that
    the first returned and uses the dimensions that the first used; the
    three states are at three different locations, each as it was made, and
    the last one counts two iterations more than the first, as an
    [unsigned int] (the sum wraps around at [2^32]). *)
Theorem iterate_twice fuel1 fuel2 params_ p m current p1 m1 p2 m2 :
  heap m !! p = Some (LevenbergMarquardtObject current) →
  iterate fuel1 params_ p m = (Returns p1, m1) →
  iterate fuel2 params_ p1 m1 = (Returns p2, m2) →
  ∃ s1 s2,
    heap m1 !! p1 = Some (LevenbergMarquardtObject s1)
    ∧ heap m2 !! p = Some (LevenbergMarquardtObject current)
    ∧ heap m2 !! p1 = Some (LevenbergMarquardtObject s1)
    ∧ heap m2 !! p2 = Some (LevenbergMarquardtObject s2)
    ∧ p ≠ p1 ∧ p ≠ p2 ∧ p1 ≠ p2
    ∧ iterations s2 = unsigned_int (iterations current + 2)
    ∧ linearized_at (log m2) = linearized_at (log m) ++ [values current; values s1]
    ∧ dimensions_in_use m1 s1 = dimensions_in_use m current.
Proof.
  intros Hp Hrun1 Hrun2.
  destruct (useQR_of params_) as [useQR|] eqn:Hq.
  2: by rewrite (iterate_invalid_factorization _ _ _ _ _ Hp Hq) in Hrun1.
  destruct (iterate_cases fuel1 _ _ _ _ _ Hp Hq) as (evs1 & Hlog1 & Hq1 & Hdim1 & Hcase1).
  rewrite Hrun1 in Hlog1, Hdim1, Hcase1. simpl in Hlog1, Hdim1, Hcase1.
  destruct Hcase1 as (k1 & s1 & _ & _ & Hnew1 & Hheap1 & Hit1 & _).
  assert (Hp1 : heap m1 !! p1 = Some (LevenbergMarquardtObject s1)).
  { by rewrite Hheap1, lookup_insert_eq. }
  destruct (iterate_cases fuel2 _ _ _ _ _ Hp1 Hq) as (evs2 & Hlog2 & Hq2 & _ & Hcase2).
  rewrite Hrun2 in Hlog2, Hcase2. simpl in Hlog2, Hcase2.
  destruct Hcase2 as (k2 & s2 & _ & _ & Hnew2 & Hheap2 & Hit2 & _).
  assert (Hne1 : p ≠ p1) by (intros <-; by rewrite Hnew1 in Hp).
  assert (Hne12 : p1 ≠ p2) by (intros <-; by rewrite Hnew2 in Hp1).
  assert (Hpm1 : heap m1 !! p = Some (LevenbergMarquardtObject current)).
  { by rewrite Hheap1, lookup_insert_ne. }
  assert (Hne2 : p ≠ p2) by (intros <-; by rewrite Hnew2 in Hpm1).
  exists s1, s2. split; [done|]. rewrite Hheap2.
  rewrite !lookup_insert_ne, lookup_insert_eq by done.
  do 6 (split; [done|]). split.
  { rewrite Hit2, Hit1, unsigned_int_add_l. f_equal. lia. }
  split.
  - destruct Hq1 as (_ & _ & Hl1 & _), Hq2 as (_ & _ & Hl2 & _).
    rewrite Hlog2, Hlog1, !linearized_at_app. simpl.
    by rewrite Hl1, Hl2, <- app_assoc.
  - unfold dimensions_in_use at 1. by rewrite Hdim1.
Qed.

End MoreOfIterate.

Section MoreOfInitialState.
Context {E : Enumerators} {C : Collaborators}.

(** X12. [initialState] makes a new state, at a location that owned nothing,
    with lambda set to [lambdaInitial], and asks nothing of the collaborators
    but the error; with valid selectors, the first solve attempt of a call of
    [iterate] on that state is on the system damped with [lambdaInitial]. *)
Theorem initialState_then_iterate fuel params_ initialValues (m : Machine) useQR :
  useQR_of params_ = Some useQR →
  is_Some (selected_solver params_) →
  ∃ p0 m0 s0,
    initialState params_ initialValues m = (Returns p0, m0)
    ∧ heap m !! p0 = None
    ∧ heap m0 = <[p0 := LevenbergMarquardtObject s0]> (heap m)
    ∧ log m0 = log m
    ∧ lambda s0 = lambdaInitial params_
    ∧ solver_calls (log (iterate (S fuel) params_ p0 m0).2)
        !! length (solver_calls (log m)) =
      Some (damped_system (graph_linearize (values s0) (ordering (values s0)))
              (dimensions_in_use m s0) (lambdaInitial params_),
            useQR).
Proof.
  intros Hq Hsel.
  set (s0 := defaultInitialState initialValues (lambdaInitial params_)).
  set (p0 := fresh (dom (heap m))).
  set (m0 := mkMachine (<[p0 := LevenbergMarquardtObject s0]> (heap m))
                       (dimensions_ m) (log m)).
  exists p0, m0, s0. split; [reflexivity|].
  split; [apply not_elem_of_dom, is_fresh|]. do 3 (split; [done|]).
  assert (Hp0 : heap m0 !! p0 = Some (LevenbergMarquardtObject s0)).
  { simpl. by rewrite lookup_insert_eq. }
  pose proof (iterate_attempt 0 fuel params_ p0 m0 s0 useQR Hp0 Hq Hsel) as Hattempt.
  simpl in Hattempt. rewrite Nat.add_0_r in Hattempt. apply Hattempt.
  intros i Hi. lia.
Qed.

End MoreOfInitialState.

(** ** More of the discrete Bayes net *)

Module MoreOfDiscrete.
Import Discrete Sampling.

Lemma foldl_reverse_foldr {A B} (f : B → A → A) (a : A) (l : list B) :
  foldl (λ acc x, f x acc) a (reverse l) = foldr f a l.
Proof.
  induction l as [|x l IH]; [done|]. by rewrite reverse_cons, foldl_app, IH.
Qed.

Lemma foldr_snoc {A B} (f : B → A → A) (a : A) (l : list B) (x : B) :
  foldr f a (l ++ [x]) = foldr f (f x a) l.
Proof. by rewrite foldr_app. Qed.

(** X13. How [add] composes with the queries: the conditional added last is
    the last factor of the product of [evaluate], and the first that
    [optimize] solves, on the empty assignment. *)
Theorem add_then_query bn s values :
  evaluate (add bn s) values = (evaluate bn values * call s values)%float
  ∧ optimize (add bn s) = foldr solveInPlace (solveInPlace s ∅) bn.
Proof.
  split.
  - unfold add, evaluate. by rewrite foldl_app.
  - unfold add, optimize. by rewrite foldl_reverse_foldr, foldr_snoc.
Qed.

Lemma valid_app pre rest :
  valid_elimination_order (pre ++ rest) →
  valid_elimination_order rest
  ∧ ∀ x, x ∈ pre → variable x ∉ (variable <$> rest).
Proof.
  induction pre as [|y pre IH]; simpl.
  { intros Hv. split; [done|]. intros x Hx. by apply elem_of_nil in Hx. }
  intros (Hfresh & _ & Hv). destruct (IH Hv) as [Hrest Hpre]. split; [done|].
  intros x [->|Hx]%elem_of_cons; [|by apply Hpre].
  intros Hin. apply Hfresh. rewrite fmap_app. apply elem_of_app. by right.
Qed.

Section Sample.
Context {Rng : Type} (sampleInPlace : DiscreteConditional → Values → Rng → Values * Rng).

Local Abbreviation step := (λ (c : DiscreteConditional) (drawn : Values * Rng),
                          sampleInPlace c drawn.1 drawn.2).

Lemma sample_foldr bn rng : sample sampleInPlace bn rng = foldr step (∅, rng) bn.
Proof. unfold sample. apply (foldl_reverse_foldr step). Qed.

(** X14. [sample] draws in reverse storage order: on the empty net it
    returns the empty assignment and leaves the generator as it was; the
    conditional stored first is sampled last, on what the rest of the net
    drew and with the generator the rest left; the conditional added last is
    sampled first, on the empty assignment and with the generator as given. *)
Theorem sample_order bn c rng :
  sample sampleInPlace [] rng = (∅, rng)
  ∧ sample sampleInPlace (c :: bn) rng =
      sampleInPlace c (sample sampleInPlace bn rng).1 (sample sampleInPlace bn rng).2
  ∧ sample sampleInPlace (add bn c) rng =
      foldr (λ c' drawn, sampleInPlace c' drawn.1 drawn.2) (sampleInPlace c ∅ rng) bn.
Proof.
  split; [done|]. split.
  - by rewrite !sample_foldr.
  - unfold add. by rewrite sample_foldr, foldr_snoc.
Qed.

Lemma step_lookup c (drawn : Values * Rng) j :
  writes_own_variable sampleInPlace →
  j ≠ variable c → (sampleInPlace c drawn.1 drawn.2).1 !! j = drawn.1 !! j.
Proof.
  intros Hwrites Hne. destruct (Hwrites c drawn.1 drawn.2) as [v ->].
  by rewrite lookup_insert_ne.
Qed.

Lemma step_assigns c (drawn : Values * Rng) :
  writes_own_variable sampleInPlace →
  is_Some ((sampleInPlace c drawn.1 drawn.2).1 !! variable c).
Proof.
  intros Hwrites. destruct (Hwrites c drawn.1 drawn.2) as [v ->].
  by rewrite lookup_insert_eq.
Qed.

Lemma foldr_step_lookup pre (start : Values * Rng) j :
  writes_own_variable sampleInPlace →
  j ∉ (variable <$> pre) → (foldr step start pre).1 !! j = start.1 !! j.
Proof.
  intros Hwrites. induction pre as [|x pre IH]; [done|].
  rewrite fmap_cons, not_elem_of_cons.
  intros [Hne Hnot]. simpl. rewrite step_lookup by done. by apply IH.
Qed.

Lemma foldr_step_assigned pre (start : Values * Rng) j :
  writes_own_variable sampleInPlace →
  is_Some ((foldr step start pre).1 !! j)
  ↔ j ∈ (variable <$> pre) ∨ is_Some (start.1 !! j).
Proof.
  intros Hwrites. induction pre as [|x pre IH]; simpl.
  { rewrite elem_of_nil. tauto. }
  rewrite elem_of_cons. destruct (decide (j = variable x)) as [->|Hne].
  - split; [auto|]. intros _. by apply step_assigns.
  - rewrite step_lookup by done. rewrite IH. tauto.
Qed.

(** X15. With a sampler that writes the variable of its conditional and
    nothing else: [sample] assigns exactly the variables of the net; and on a
    net in valid elimination order, each conditional is sampled on the draw
    of the conditionals stored after it, in which its parents are assigned,
    and what was drawn for these is not drawn again. *)
Theorem sample_parents_first bn rng :
  writes_own_variable sampleInPlace →
  (∀ j, is_Some ((sample sampleInPlace bn rng).1 !! j) ↔ j ∈ (variable <$> bn))
  ∧ (valid_elimination_order bn →
     ∀ pre c post, bn = pre ++ c :: post →
       let before := sample sampleInPlace post rng in
       sample sampleInPlace bn rng =
         foldr (λ c' drawn, sampleInPlace c' drawn.1 drawn.2)
               (sampleInPlace c before.1 before.2) pre
       ∧ (∀ p, p ∈ parents c → is_Some (before.1 !! p))
       ∧ (∀ j, j ∈ (variable <$> post) →
            (sample sampleInPlace bn rng).1 !! j = before.1 !! j)).
Proof.
  intros Hwrites. split.
  - intros j. rewrite sample_foldr, foldr_step_assigned by done. simpl.
    rewrite lookup_empty. split; [intros [?|[? [=]]]; done|auto].
  - intros Hvalid pre c post -> before. subst before.
    destruct (valid_app _ _ Hvalid) as [(Hfresh & Hparents & _) Hpre].
    split; [|split].
    + rewrite !sample_foldr, foldr_app. done.
    + intros p Hp. rewrite sample_foldr, foldr_step_assigned by done.
      left. by apply Hparents.
    + intros j Hj. rewrite !sample_foldr, foldr_app. simpl.
      rewrite foldr_step_lookup; [|done|].
      * apply step_lookup; [done|]. intros ->. by apply Hfresh.
      * intros (x & -> & Hx)%list_elem_of_fmap.
        apply (Hpre x Hx). rewrite fmap_cons. apply elem_of_cons. by right.
Qed.

End Sample.

End MoreOfDiscrete.

(** ** More runs on the scalar problem and on the chain *)

Module MoreRuns.
Import Scalar.
Local Open Scope float_scope.

(** X1, witness: one rejected trial at 0.0625, then an accepted one at 0.25. *)
Lemma iterate_returned_state_witness :
  ∃ next : @LevenbergMarquardtState (problem 2.1875 0),
    heap (iterate 5 (params 0 0 4 1024) 1 (machine_with (state_at 0 0.0625))).2 !! 2%positive
      = Some (LevenbergMarquardtObject next)
    ∧ iterations next = unsigned_int (0 + 1).
Proof.
  destruct (iterate_returned_state 5 (params 0 0 4 1024) 1%positive
              (machine_with (@state_at 2.1875 0 0 0.0625)) (state_at 0 0.0625) 2%positive
              (iterate 5 (params 0 0 4 1024) 1 (machine_with (state_at 0 0.0625))).2)
    as (useQR & k & next & _ & _ & _ & Hnext & Hit & _).
  - reflexivity.
  - vm_compute. reflexivity.
  - exists next. split; [exact Hnext|exact Hit].
Defined.

(** X2, witness: the same call; the state at x = 0 has the error 9 of its values. *)
Lemma iterate_keeps_error_of_values_witness :
  ∃ next : @LevenbergMarquardtState (problem 2.1875 0),
    heap (iterate 5 (params 0 0 4 1024) 1 (machine_with (state_at 0 0.0625))).2 !! 2%positive
      = Some (LevenbergMarquardtObject next)
    ∧ error next = graph_error (values next).
Proof.
  apply (iterate_keeps_error_of_values 5 (params 0 0 4 1024) 1%positive
           (machine_with (@state_at 2.1875 0 0 0.0625)) (state_at 0 0.0625) 2%positive
           (iterate 5 (params 0 0 4 1024) 1 (machine_with (state_at 0 0.0625))).2).
  - reflexivity.
  - reflexivity.
  - vm_compute. reflexivity.
Defined.

(** X3, witness: the sequential solver under QR throws another exception. *)
Lemma iterate_thrown_exception_witness :
  let m := machine_with (@state_at 1 0 0 0.25) in
  heap (iterate 3 (params 1 1 4 1024) 1 m).2 = heap m.
Proof.
  intros m.
  apply (iterate_thrown_exception 3 (params 1 1 4 1024) 1%positive m (other_exception 1)
           (iterate 3 (params 1 1 4 1024) 1 m).2).
  vm_compute. reflexivity.
Defined.

(** X4, witness: a call from lambda 0.125 with the growth factor 2 and the
    bound 1024, on a problem whose trials below lambda 1.5 are rejected. *)
Lemma iterate_still_running_witness :
  let current : @LevenbergMarquardtState (problem 5 0) := state_at 0 0.125 in
  let m := machine_with current in
  ((iterate 2 (params 0 0 2 1024) 1 m).1 = OutOfFuel
   ↔ first_trials_go_on (params 0 0 2 1024) current m false 2)
  ∧ ((iterate 2 (params 0 0 2 1024) 1 m).1 = OutOfFuel →
     heap (iterate 2 (params 0 0 2 1024) 1 m).2 = heap m).
Proof.
  apply (iterate_still_running 2 (params 0 0 2 1024) 1%positive
           (machine_with (@state_at 5 0 0 0.125)) (state_at 0 0.125) false).
  - reflexivity.
  - reflexivity.
Defined.

(** X5, witness: lambda 0 with the growth factor 10. *)
Lemma iterate_never_ends_witness :
  ((iterate 50 (params 0 0 10 1024) 1 (machine_with (@state_at 5 0 0 0))).1 : Completion _)
  = OutOfFuel.
Proof.
  apply (iterate_never_ends 50 (params 0 0 10 1024) 1%positive
           (machine_with (@state_at 5 0 0 0)) (state_at 0 0) false).
  - reflexivity.
  - reflexivity.
  - reflexivity.
  - vm_compute. split; reflexivity.
Defined.

(** X8, witness: giving up at the bound 0.25 with the verbosity [ERROR]. *)
Lemma iterate_warns_when_giving_up_witness :
  let m := machine_with (@state_at 5 0 0 0.125) in
  warnings (log (iterate (1 + 1) (params_warning 2 0.25) 1 m).2)
    = (warnings (log m)
       + (if (ERROR <=? verbosity (params_warning 2 0.25))%Z then 1 else 0))%nat.
Proof.
  intros m.
  apply (iterate_warns_when_giving_up 1 0 (params_warning 2 0.25) 1%positive m
           (state_at 0 0.125) false).
  - reflexivity.
  - reflexivity.
  - intros i Hi. assert (i = 0%nat) as -> by lia. vm_compute. split; reflexivity.
  - vm_compute. reflexivity.
  - reflexivity.
Defined.

(** X11, witness: two calls from x = 0, each accepted at its first trial. *)
Lemma iterate_twice_witness :
  let m := machine_with (@state_at 1.25 0 0 0.25) in
  let r1 := iterate 1 (params 0 0 4 1024) 1 m in
  let r2 := iterate 1 (params 0 0 4 1024) 2 r1.2 in
  ∃ s1 s2,
    heap r1.2 !! 2%positive = Some (LevenbergMarquardtObject s1)
    ∧ heap r2.2 !! 1%positive = Some (LevenbergMarquardtObject (state_at 0 0.25))
    ∧ heap r2.2 !! 2%positive = Some (LevenbergMarquardtObject s1)
    ∧ heap r2.2 !! 3%positive = Some (LevenbergMarquardtObject s2)
    ∧ 1%positive ≠ 2%positive ∧ 1%positive ≠ 3%positive ∧ 2%positive ≠ 3%positive
    ∧ iterations s2 = unsigned_int (0 + 2)
    ∧ linearized_at (log r2.2) = linearized_at (log m) ++ [0; values s1]
    ∧ dimensions_in_use r1.2 s1 = dimensions_in_use m (state_at 0 0.25).
Proof.
  intros m r1 r2.
  apply (iterate_twice 1 1 (params 0 0 4 1024) 1%positive m (state_at 0 0.25)
           2%positive r1.2 3%positive r2.2).
  - reflexivity.
  - vm_compute. reflexivity.
  - vm_compute. reflexivity.
Defined.

(** X12, witness: an initial state at x = 0 in the empty machine. *)
Lemma initialState_then_iterate_witness :
  let C := problem 1.25 0 in
  let m := mkMachine ∅ None [] in
  ∃ p0 m0 s0,
    initialState (params 0 0 4 1024) (0 : @Values C) m = (Returns p0, m0)
    ∧ heap m !! p0 = None
    ∧ heap m0 = <[p0 := LevenbergMarquardtObject s0]> (heap m)
    ∧ log m0 = log m
    ∧ lambda s0 = lambdaInitial (params 0 0 4 1024)
    ∧ solver_calls (log (iterate (S 0) (params 0 0 4 1024) p0 m0).2)
        !! length (solver_calls (log m)) =
      Some (damped_system (graph_linearize (values s0) (ordering (values s0)))
              (dimensions_in_use m s0) (lambdaInitial (params 0 0 4 1024)),
            false).
Proof.
  intros C m.
  apply (@initialState_then_iterate enumerators C 0%nat (params 0 0 4 1024) 0 m false).
  - reflexivity.
  - eexists. reflexivity.
Defined.

End MoreRuns.

Module MoreDraws.
Import Discrete Sampling.

Lemma draw_next_writes_own_variable : writes_own_variable draw_next.
Proof. intros c values [|x rng]; eexists; reflexivity. Qed.

(** X15, witness: drawing 1 for A and then 0 for B on the chain A -> B. *)
Lemma sample_parents_first_witness :
  (∀ j, is_Some ((sample draw_next chain [1; 0]).1 !! j) ↔ j ∈ (variable <$> chain))
  ∧ (sample draw_next chain [1; 0]).1 = {[ 0 := 1; 1 := 0 ]}.
Proof.
  split.
  - apply (proj1 (MoreOfDiscrete.sample_parents_first draw_next chain [1; 0]
                    draw_next_writes_own_variable)).
  - apply map_eq. intros [|[|i]]; vm_compute; reflexivity.
Defined.

End MoreDraws.
